(** * Multiresolution DTM fitting (tools/fit-dtm.py)

    A shallow embedding of the cloth-draping terrain fit: [downsample],
    [upsample], [drape_cloth], [recursive_fit_dtm] and [fit_dtm], together
    with the numpy / scipy operations they are written with.

    Conventions of the embedding.
    - A 2-D numpy array is a list of rows.  An array without rows is the
      empty list, whatever its column count.
    - Elevations are exact rationals ([Qc], canonical fractions, so that
      numerical equality is Leibniz equality).  Rounding, infinities and
      NaN of IEEE arithmetic are outside the model.
    - A Python exception is a value of [exn]; a computation that may raise
      lives in [result].  An exception aborts the computation.
    - In-place writes are explicit: a function that writes into an array
      it was given returns the final content of that array next to its
      result.
    - The progress lines the program prints are not modelled. *)

From Equations Require Import Equations.
From Stdlib Require Import QArith Qcanon.
From stdpp Require Import base numbers list strings gmap.

Abbreviation raster := (list (list Qc)).

(** ** Exceptions *)

Inductive exn : Type :=
| ValueError (msg : string).

Inductive result (A : Type) : Type :=
| Ok (a : A)
| Raise (e : exn).
Arguments Ok {A} a.
Arguments Raise {A} e.

#[global] Instance result_ret : MRet result := λ A a, Ok a.
#[global] Instance result_bind : MBind result := λ A B f m,
  match m with
  | Ok a => f a
  | Raise e => Raise e
  end.

#[global] Instance result_fmap : FMap result := λ A B f m,
  match m with
  | Ok a => Ok (f a)
  | Raise e => Raise e
  end.

Definition succeeds {A} (m : result A) : bool :=
  match m with
  | Ok _ => true
  | Raise _ => false
  end.

(** [for _ in range(n): x = f(x)] with [f] allowed to raise. *)
Fixpoint repeatM {A} (n : nat) (f : A → result A) (x : A) : result A :=
  match n with
  | O => Ok x
  | S n' => y ← f x; repeatM n' f y
  end.

(** ** Arrays *)

Definition Qcmin (x y : Qc) : Qc := if decide (x ≤ y)%Qc then x else y.
Definition Qcmax (x y : Qc) : Qc := if decide (x ≤ y)%Qc then y else x.

(** [a.shape] *)
Definition shape (a : raster) : nat * nat :=
  (length a, length (default [] (head a))).

(** [numpy.min(a.shape)] *)
Definition min_dim (a : raster) : nat := Nat.min (shape a).1 (shape a).2.

(** [a[r, c]] for an index inside the array. *)
Definition get (a : raster) (r c : nat) : Qc :=
  default 0%Qc (a !! r ≫= (.!! c)).

(** The array of shape [sh] whose cell [(r, c)] holds [f r c]. *)
Definition tabulate (sh : nat * nat) (f : nat → nat → Qc) : raster :=
  (λ r, f r <$> seq 0 sh.2) <$> seq 0 sh.1.

(** Every row has [w] cells and there are [h] rows. *)
Definition rect (h w : nat) (a : raster) : Prop :=
  length a = h ∧ Forall (λ row, length row = w) a.

(** [numpy.full(sh, v)] *)
Definition full (sh : nat * nat) (v : Qc) : raster :=
  replicate sh.1 (replicate sh.2 v).

(** [a += s] *)
Definition iadd (a : raster) (s : Qc) : raster :=
  fmap (M := list) (fmap (M := list) (λ x, (x + s)%Qc)) a.

(** numpy broadcasting of one axis: a length-1 axis is stretched. *)
Definition stretch {A} (n : nat) (l : list A) : option (list A) :=
  if decide (length l = n) then Some l
  else match l with
       | [x] => Some (replicate n x)
       | _ => None
       end.

(** [numpy.broadcast_to(a, sh)].  numpy words the error differently for an
    operand of a ufunc and for an assigned block; both are [ValueError]. *)
Definition broadcast_to (sh : nat * nat) (a : raster) : result raster :=
  match stretch sh.1 a ≫= mapM (stretch sh.2) with
  | Some b => Ok b
  | None => Raise (ValueError "operands could not be broadcast together")
  end.

(** numpy's broadcasting rule for a source of shape [src] and a target of
    shape [dst]: every source dimension is the target's, or is 1. *)
Definition broadcastable (src dst : nat * nat) : bool :=
  ((src.1 =? dst.1) || (src.1 =? 1)) && ((src.2 =? dst.2) || (src.2 =? 1)).

(** [numpy.minimum(a, b, out=a)]: the content written into [a]. *)
Definition minimum_out (a b : raster) : result raster :=
  b' ← broadcast_to (shape a) b;
  Ok (zip_with (zip_with Qcmin) a b').

(** One axis of [scipy.ndimage.uniform_filter(a, size=3)] with the default
    boundary mode [reflect]: the window at an edge cell sees that cell
    again in place of the missing neighbour. *)
Definition prev_index (i : nat) : nat := pred i.
Definition next_index (n i : nat) : nat := Nat.min (S i) (pred n).

Definition uniform_filter1d_axis0 (a : raster) : raster :=
  tabulate (shape a) (λ r c,
    ((get a (prev_index r) c + get a r c + get a (next_index (shape a).1 r) c)
     / Qc_of_Z 3)%Qc).

Definition uniform_filter1d_axis1 (a : raster) : raster :=
  tabulate (shape a) (λ r c,
    ((get a r (prev_index c) + get a r c + get a r (next_index (shape a).2 c))
     / Qc_of_Z 3)%Qc).

(** [scipy.ndimage.uniform_filter(a, size=3)]: a 1-D filter along each axis
    in turn. *)
Definition uniform_filter (a : raster) : raster :=
  uniform_filter1d_axis1 (uniform_filter1d_axis0 a).

(** [l[:-1]] *)
Definition drop_last {A} (l : list A) : list A := take (length l - 1) l.

(** Number of indices [start, start + 2, ...] below [n]: the length of the
    slice [start::2] of an axis of length [n]. *)
Definition slice2_len (start n : nat) : nat := (n + 1 - start) / 2.

(** [out[r0::2, c0::2] = src]: the content of [out] after the assignment. *)
Definition setitem2 (r0 c0 : nat) (out src : raster) : result raster :=
  let sh := shape out in
  b ← broadcast_to (slice2_len r0 sh.1, slice2_len c0 sh.2) src;
  Ok (tabulate sh (λ r c,
        if (r mod 2 =? r0) && (c mod 2 =? c0)
        then get b (r / 2) (c / 2)
        else get out r c)).

(** ** The program *)

(** [dtm[::2, ::2]] *)
Definition downsample (dtm : raster) : raster :=
  tabulate (slice2_len 0 (shape dtm).1, slice2_len 0 (shape dtm).2)
           (λ r c, get dtm (2 * r) (2 * c)).

(** [downsample] returns a view: a write into it lands in the array it was
    taken from.  [write_view v dtm] is [dtm] after its view has received
    the content [v]. *)
Definition write_view (v dtm : raster) : raster :=
  tabulate (shape dtm) (λ r c,
    if (r mod 2 =? 0) && (c mod 2 =? 0) then get v (r / 2) (c / 2)
    else get dtm r c).

(** [upsample(dtm, out)]: the content of [out] afterwards. *)
Definition upsample (dtm out : raster) : result raster :=
  let s0 (a : raster) : raster :=
    if (shape out).1 mod 2 =? 1 then drop_last a else a in
  let s1 (a : raster) : raster :=
    if (shape out).2 mod 2 =? 1 then drop_last <$> a else a in
  out ← setitem2 0 0 out dtm;
  out ← setitem2 1 0 out (s0 dtm);
  out ← setitem2 0 1 out (s1 dtm);
  setitem2 1 1 out (s0 (s1 dtm)).

(** The local name [dtm] of [drape_cloth]. *)
Record binding : Type := Binding {
  arg : raster;     (* the array the caller passed *)
  loc : raster;     (* the array the name is bound to *)
  aliased : bool    (* they are one and the same array *)
}.

(** A write in place into the array the name is bound to. *)
Definition store (b : binding) (v : raster) : binding :=
  {| arg := if aliased b then v else arg b; loc := v; aliased := aliased b |}.

(** Binding the name to a new array. *)
Definition rebind (b : binding) (v : raster) : binding :=
  {| arg := arg b; loc := v; aliased := false |}.

(** Body of the inner loop of [drape_cloth]. *)
Definition drape_inner (dsm : raster) (b : binding) : result binding :=
  m ← minimum_out (loc b) dsm;
  let b := store b m in
  Ok (rebind b (uniform_filter (loc b))).

(** Body of the outer loop of [drape_cloth]. *)
Definition drape_outer (dsm : raster) (step : Qc) (b : binding) : result binding :=
  let b := store b (iadd (loc b) step) in
  repeatM 10 (drape_inner dsm) b.

(** [drape_cloth(dtm, dsm, step, num_iter)]: the final content of the array
    passed as [dtm], and the array returned. *)
Definition drape_cloth (dtm dsm : raster) (step : Qc) (num_iter : nat)
  : result (raster * raster) :=
  b ← repeatM num_iter (drape_outer dsm step) (Binding dtm dtm true);
  m ← minimum_out (loc b) dsm;
  let b := store b m in
  Ok (arg b, loc b).

(** [step / (2 * 2 ** (max_level - level))] *)
Definition decayed_step (step : Qc) (max_level level : nat) : Qc :=
  (step / Qc_of_Z (2 * 2 ^ Z.of_nat (max_level - level)))%Qc.

(** [max(1, int(100 / (2 ** (max_level - level))))]: the quotient of 100 by
    a power of two is exact, so truncating it is the integer quotient. *)
Definition decayed_iter (max_level level : nat) : nat :=
  Nat.max 1 (100 / 2 ^ (max_level - level)).

(** [recursive_fit_dtm(dtm, dsm, step, level)]: the final content of the
    array passed as [dtm], the fitted array returned, and the deepest
    level.  The array returned by a call is never its argument array (every
    call of [drape_cloth] below iterates at least once, and the first
    filter binds a new array). *)
Equations recursive_fit_dtm (dtm dsm : raster) (step : Qc) (level : nat)
  : result (raster * raster * nat) by wf (min_dim dtm) lt :=
recursive_fit_dtm dtm dsm step level with le_lt_dec (min_dim dtm) 100 := {
  | right Hgt :=
      let sm_dtm := downsample dtm in
      let sm_dsm := downsample dsm in
      r ← recursive_fit_dtm sm_dtm sm_dsm step (level + 1);
      let dtm := write_view r.1.1 dtm in
      dtm ← upsample r.1.2 dtm;
      let max_level := r.2 in
      let step := decayed_step step max_level level in
      let num_iter := decayed_iter max_level level in
      d ← drape_cloth dtm dsm step num_iter;
      Ok (d.1, d.2, max_level)
  | left _ :=
      d ← drape_cloth dtm dsm step 100;
      Ok (d.1, d.2, level) }.
Next Obligation.
  intros dtm Hgt _ _ _ _ sm_dtm _. subst sm_dtm. revert Hgt.
  unfold min_dim, downsample.
  generalize (shape dtm).1 (shape dtm).2 (λ r c : nat, get dtm (2 * r) (2 * c)).
  intros h w f Hlt. unfold shape, tabulate, slice2_len. cbn [fst snd].
  rewrite length_fmap, length_seq.
  assert (Hd : ∀ n, 100 < n → 0 < (n + 1 - 0) / 2 < n).
  { intros n Hn. split.
    - apply Nat.div_str_pos. lia.
    - apply Nat.Div0.div_lt_upper_bound. lia. }
  destruct (Hd h) as [Hh0 Hh]; [lia|]. destruct (Hd w) as [Hw0 Hw]; [lia|].
  destruct ((h + 1 - 0) / 2) as [|h'] eqn:Eh; [lia|].
  cbn [seq fmap list_fmap head default from_option]. unfold id.
  rewrite length_fmap, length_seq. lia.
Qed.

(** [numpy.min(l)] and [numpy.max(l)] of a flat selection. *)
Definition amin (l : list Qc) : result Qc :=
  match l with
  | [] => Raise (ValueError
      "zero-size array to reduction operation minimum which has no identity")
  | x :: l' => Ok (foldl Qcmin x l')
  end.

Definition amax (l : list Qc) : result Qc :=
  match l with
  | [] => Raise (ValueError
      "zero-size array to reduction operation maximum which has no identity")
  | x :: l' => Ok (foldl Qcmax x l')
  end.

(** [dsm[dsm != nodata_val]] *)
Definition valid_data (dsm : raster) (nodata_val : Qc) : list Qc :=
  filter (λ x, x ≠ nodata_val) (concat dsm).

(** [dsm[dsm == nodata_val] = maxv] *)
Definition fill_nodata (dsm : raster) (nodata_val maxv : Qc) : raster :=
  fmap (M := list)
    (fmap (M := list) (λ x, if decide (x = nodata_val) then maxv else x)) dsm.

(** [fit_dtm(dsm, nodata_val)]: the final content of the caller's [dsm]
    array, and the outcome. *)
Definition fit_dtm (dsm : raster) (nodata_val : Qc) : raster * result raster :=
  let valid := valid_data dsm nodata_val in
  match amin valid with
  | Raise e => (dsm, Raise e)
  | Ok minv =>
    match amax valid with
    | Raise e => (dsm, Raise e)
    | Ok maxv =>
      let dsm := fill_nodata dsm nodata_val maxv in
      let step := ((maxv - minv) / Qc_of_Z 100)%Qc in
      let dtm := full (shape dsm) minv in
      (dsm, r ← recursive_fit_dtm dtm dsm step 0; Ok r.1.2)
    end
  end.

(** ** The relaxation engine in the words of the specification

    Section 4.2: repeat [outer_iterations] times (add [step] to every cell,
    then ten times (clamp every cell to the ceiling, then replace the
    raster by its 3x3 box average)), and clamp once more at the end.  The
    box average is the unweighted mean of the nine cells of the window,
    where a window index that falls outside the raster is clamped to the
    nearest index inside it. *)
Module Spec.

Definition lift (dtm : raster) (step : Qc) : raster :=
  tabulate (shape dtm) (λ r c, (get dtm r c + step)%Qc).

Definition clamp (dtm ceiling : raster) : raster :=
  tabulate (shape dtm) (λ r c, Qcmin (get dtm r c) (get ceiling r c)).

Definition clamp_index (n : nat) (i : Z) : nat :=
  Z.to_nat (Z.max 0 (Z.min i (Z.of_nat n - 1))).

Definition window3 : list (Z * Z) :=
  dr ← [-1; 0; 1]%Z; dc ← [-1; 0; 1]%Z; [(dr, dc)].

Definition box_average (a : raster) : raster :=
  tabulate (shape a) (λ r c,
    (foldr Qcplus 0%Qc
       ((λ d, get a (clamp_index (shape a).1 (Z.of_nat r + d.1))
                    (clamp_index (shape a).2 (Z.of_nat c + d.2))) <$> window3)
     / Qc_of_Z 9)%Qc).

Definition relax (ceiling : raster) (dtm : raster) : raster :=
  box_average (clamp dtm ceiling).

Definition drape (dtm ceiling : raster) (step : Qc) (outer_iterations : nat)
  : raster :=
  clamp (Nat.iter outer_iterations
           (λ d, Nat.iter 10 (relax ceiling) (lift d step)) dtm)
        ceiling.

(** Section 8, termination bound: the ceiling of [log2 (m / 100)], or 0 if
    [m ≤ 100].  A power of two is an integer, so it is at least [m / 100]
    exactly when it is at least [m / 100] rounded up. *)
Definition levels (m : nat) : nat := Nat.log2_up ((m + 99) / 100).

End Spec.

(** ** Sample rasters *)

Definition nodata : Qc := Qc_of_Z (-9999).

Definition dsm_gap : raster :=
  [[nodata; Qc_of_Z 5]; [Qc_of_Z 3; Qc_of_Z 4]].



Definition dtm_2x2 : raster := [[Qc_of_Z 1; Qc_of_Z 2]; [Qc_of_Z 5; Qc_of_Z 7]].

Definition dsm_2x2 : raster := [[Qc_of_Z 4; Qc_of_Z 1]; [Qc_of_Z 6; Qc_of_Z 6]].

Definition dsm_1x1 : raster := [[Qc_of_Z 3]].

Definition out_3x3 : raster := full (3, 3) 0%Qc.

Definition out_4x4 : raster := full (4, 4) 0%Qc.

Definition dtm_large : raster := full (201, 150) 0%Qc.

Definition dsm_large : raster := full (201, 150) (Qc_of_Z 9).




(** [dtm_large] with every cell of odd row or column index set to 5. *)
Definition dtm_large_odd : raster :=
  tabulate (201, 150) (λ r c,
    if (r mod 2 =? 0) && (c mod 2 =? 0) then 0%Qc else Qc_of_Z 5).

(** * Grouping the image files (tools/run_danesfield.py)

    [ensure_complete_modality], [classify_fpaths] and the loop of [main]
    that uses them.  A Python dict is a finite map; the dicts nested in
    [id_to_files] are held by value, which is how [main] builds them (no
    two entries share a dict).  A [KeyError] aborts the function; what it
    has written before stays written.  The functions are modelled as they
    are written; the import block of the file still holds the markers of
    an unresolved merge, and the part of [main] after the loop (files,
    subprocesses) is not modelled. *)
Module RunDanesfield.

Inductive raised : Type :=
| KeyError (key : string).

(** [sub in s] for two strings. *)
Fixpoint contains (sub s : string) : bool :=
  String.prefix sub s ||
  match s with
  | EmptyString => false
  | String _ s' => contains sub s'
  end.

(** [ensure_complete_modality(modality_dict, require_rpc)] *)
Definition ensure_complete_modality (modality_dict : gmap string string)
    (require_rpc : bool) : bool :=
  let keys := ["image"; "info"] ++ (if require_rpc then ["rpc"] else []) in
  forallb (λ key, bool_decide (is_Some (modality_dict !! key))) keys.

(** [id_to_files[prefix][modality][file_type] = fpath] *)
Definition setitem (id_to_files : gmap string (gmap string (gmap string string)))
    (prefix modality file_type fpath : string)
  : gmap string (gmap string (gmap string string)) + raised :=
  match id_to_files !! prefix with
  | None => inr (KeyError prefix)
  | Some entry =>
      match entry !! modality with
      | None => inr (KeyError modality)
      | Some files =>
          inl (<[prefix := <[modality := <[file_type := fpath]> files]> entry]>
                 id_to_files)
      end
  end.

(** The [if] / [elif] chain of [classify_fpaths]: the modality a path is
    filed under. *)
Definition modality_of (fpath : string) : option string :=
  if contains "-P1BS-" fpath then Some "pan"
  else if contains "-M1BS-" fpath then Some "msi"
  else if contains "-A1BS-" fpath then Some "swir"
  else None.

(** [classify_fpaths(prefix, fpaths, id_to_files, file_type)]: the content
    of [id_to_files] afterwards, and the exception raised, if any. *)
Fixpoint classify_fpaths (prefix : string) (fpaths : list string)
    (id_to_files : gmap string (gmap string (gmap string string)))
    (file_type : string)
  : gmap string (gmap string (gmap string string)) * option raised :=
  match fpaths with
  | [] => (id_to_files, None)
  | fpath :: fpaths' =>
      if contains prefix fpath then
        match modality_of fpath with
        | Some modality =>
            match setitem id_to_files prefix modality file_type fpath with
            | inl id_to_files' =>
                classify_fpaths prefix fpaths' id_to_files' file_type
            | inr e => (id_to_files, Some e)
            end
        | None => classify_fpaths prefix fpaths' id_to_files file_type
        end
      else classify_fpaths prefix fpaths' id_to_files file_type
  end.

(** The entry [main] creates for a prefix. *)
Definition blank_files : gmap string string :=
  {[ "image" := ""; "rpc" := ""; "info" := "" ]}.

Definition blank_entry : gmap string (gmap string string) :=
  {[ "pan" := blank_files; "msi" := blank_files; "swir" := blank_files ]}.

(** [collection_id_to_files[prefix][modality]] *)
Definition getitem2
    (collection_id_to_files : gmap string (gmap string (gmap string string)))
    (prefix modality : string) : gmap string string + raised :=
  match collection_id_to_files !! prefix with
  | None => inr (KeyError prefix)
  | Some entry =>
      match entry !! modality with
      | None => inr (KeyError modality)
      | Some files => inl files
      end
  end.

(** The test [complete] of [main]; [and] does not look up the MSI files
    when the PAN files are incomplete. *)
Definition complete
    (collection_id_to_files : gmap string (gmap string (gmap string string)))
    (prefix : string) : bool + raised :=
  match getitem2 collection_id_to_files prefix "pan" with
  | inr e => inr e
  | inl pan =>
      if ensure_complete_modality pan false then
        match getitem2 collection_id_to_files prefix "msi" with
        | inr e => inr e
        | inl msi => inl (ensure_complete_modality msi false)
        end
      else inl false
  end.

(** Body of the loop of [main] over the prefixes: the state is
    [collection_id_to_files] and [incomplete_ids]. *)
Definition group_prefix (ntf_fpaths rpc_fpaths info_fpaths : list string)
    (state : gmap string (gmap string (gmap string string)) * list string)
    (prefix : string)
  : (gmap string (gmap string (gmap string string)) * list string)
    * option raised :=
  let incomplete_ids := state.2 in
  let c := <[prefix := blank_entry]> state.1 in
  match classify_fpaths prefix ntf_fpaths c "image" with
  | (c, Some e) => ((c, incomplete_ids), Some e)
  | (c, None) =>
  match classify_fpaths prefix rpc_fpaths c "rpc" with
  | (c, Some e) => ((c, incomplete_ids), Some e)
  | (c, None) =>
  match classify_fpaths prefix info_fpaths c "info" with
  | (c, Some e) => ((c, incomplete_ids), Some e)
  | (c, None) =>
  match complete c prefix with
  | inr e => ((c, incomplete_ids), Some e)
  | inl true => ((c, incomplete_ids), None)
  | inl false => ((delete prefix c, incomplete_ids ++ [prefix]), None)
  end end end end.

(** The loop of [main] over the prefixes, from an empty collection. *)
Fixpoint group_loop (ntf_fpaths rpc_fpaths info_fpaths : list string)
    (prefixes : list string)
    (state : gmap string (gmap string (gmap string string)) * list string)
  : (gmap string (gmap string (gmap string string)) * list string)
    * option raised :=
  match prefixes with
  | [] => (state, None)
  | prefix :: prefixes' =>
      match group_prefix ntf_fpaths rpc_fpaths info_fpaths state prefix with
      | (state, Some e) => (state, Some e)
      | (state, None) =>
          group_loop ntf_fpaths rpc_fpaths info_fpaths prefixes' state
      end
  end.

Definition group_files (ntf_fpaths rpc_fpaths info_fpaths prefixes : list string)
  : (gmap string (gmap string (gmap string string)) * list string)
    * option raised :=
  group_loop ntf_fpaths rpc_fpaths info_fpaths prefixes (∅, []).

(** Sample paths. *)
Definition pan_ntf : string := "in/01JAN15000000-P1BS-a.NTF".
Definition pan_ntf_b : string := "in/01JAN15000000-P1BS-b.NTF".
Definition msi_ntf : string := "in/01JAN15000000-M1BS-a.NTF".
Definition other_ntf : string := "in/02FEB16111111-P1BS-a.NTF".

End RunDanesfield.

(** * Properties *)

(** ** Arrays *)

Lemma rect_length h w (a : raster) : rect h w a → length a = h.
Proof. by intros [? _]. Qed.

Lemma rect_row h w (a : raster) r row :
  rect h w a → a !! r = Some row → length row = w.
Proof.
  intros [_ Hall] Hr. rewrite Forall_lookup in Hall. by eapply Hall.
Qed.

Lemma rect_shape h w (a : raster) : rect h w a → 0 < h → shape a = (h, w).
Proof.
  intros [Hlen Hall] Hh. unfold shape. rewrite Hlen. f_equal.
  destruct a as [|row a]; simpl in *; [lia|]. by inversion Hall.
Qed.

Lemma rect_nil w : rect 0 w [].
Proof. split; [done | constructor]. Qed.

Lemma rect_0_inv w (a : raster) : rect 0 w a → a = [].
Proof. intros [Hlen _]. by destruct a. Qed.

Lemma rect_lookup h w (a : raster) r c :
  rect h w a → r < h → c < w →
  ∃ row x, a !! r = Some row ∧ row !! c = Some x ∧ get a r c = x.
Proof.
  intros Ha Hr Hc.
  destruct (lookup_lt_is_Some_2 a r) as [row Hrow].
  { by rewrite (rect_length _ _ _ Ha). }
  destruct (lookup_lt_is_Some_2 row c) as [x Hx].
  { by rewrite (rect_row _ _ _ _ _ Ha Hrow). }
  exists row, x. repeat split; try done.
  unfold get. rewrite Hrow. simpl. by rewrite Hx.
Qed.

Lemma raster_ext h w (a b : raster) :
  rect h w a → rect h w b →
  (∀ r c, r < h → c < w → get a r c = get b r c) → a = b.
Proof.
  intros Ha Hb Hget. apply list_eq_same_length with h;
    [apply (rect_length _ _ _ Hb) | apply (rect_length _ _ _ Ha) |].
  intros r rowa rowb Hr Hra Hrb.
  apply list_eq_same_length with w;
    [apply (rect_row _ _ _ _ _ Hb Hrb) | apply (rect_row _ _ _ _ _ Ha Hra) |].
  intros c x y Hc Hx Hy.
  specialize (Hget r c Hr Hc). unfold get in Hget.
  rewrite Hra, Hrb in Hget. simpl in Hget. by rewrite Hx, Hy in Hget.
Qed.

Lemma tabulate_lookup h w f r :
  r < h → tabulate (h, w) f !! r = Some (f r <$> seq 0 w).
Proof.
  intros Hr. unfold tabulate. cbn [fst snd].
  rewrite list_lookup_fmap, lookup_seq_lt by done. done.
Qed.

Lemma length_tabulate h w f : length (tabulate (h, w) f) = h.
Proof. unfold tabulate. cbn [fst snd]. by rewrite length_fmap, length_seq. Qed.

Lemma rect_tabulate h w f : rect h w (tabulate (h, w) f).
Proof.
  split; [apply length_tabulate|].
  apply Forall_lookup. intros r row Hrow.
  assert (Hr : r < h).
  { apply lookup_lt_Some in Hrow. by rewrite length_tabulate in Hrow. }
  rewrite tabulate_lookup in Hrow by done. injection Hrow as <-.
  by rewrite length_fmap, length_seq.
Qed.

Lemma get_tabulate h w f r c :
  r < h → c < w → get (tabulate (h, w) f) r c = f r c.
Proof.
  intros Hr Hc. unfold get. rewrite tabulate_lookup by done. simpl.
  rewrite list_lookup_fmap, lookup_seq_lt by done. done.
Qed.

Lemma tabulate_ext h w f g :
  (∀ r c, r < h → c < w → f r c = g r c) →
  tabulate (h, w) f = tabulate (h, w) g.
Proof.
  intros Hfg. apply (raster_ext h w); try apply rect_tabulate.
  intros r c Hr Hc. rewrite !get_tabulate by done. by apply Hfg.
Qed.

(** An array tabulated over the shape of [a] has the shape of [a]. *)
Lemma rect_tabulate_shape h w (a : raster) f :
  rect h w a → rect h w (tabulate (shape a) f).
Proof.
  intros Ha. destruct h as [|h].
  - apply rect_0_inv in Ha. subst. apply rect_nil.
  - rewrite (rect_shape (S h) w) by (done || lia). apply rect_tabulate.
Qed.

Lemma tabulate_shape_eq h w (a b : raster) f :
  rect h w a → rect h w b →
  (∀ r c, r < h → c < w → f r c = get b r c) →
  tabulate (shape a) f = b.
Proof.
  intros Ha Hb Hf. apply (raster_ext h w); [by apply rect_tabulate_shape | done |].
  intros r c Hr Hc. rewrite (rect_shape h w) by (done || lia).
  rewrite get_tabulate by done. by apply Hf.
Qed.

Create HintDb rect discriminated.
#[global] Hint Resolve rect_nil rect_tabulate rect_tabulate_shape : rect.

Lemma Qcmin_le_r (x y : Qc) : (Qcmin x y ≤ y)%Qc.
Proof. unfold Qcmin. case_decide; [done | apply Qcle_refl]. Qed.

Lemma Qcmin_le_l (x y : Qc) : (Qcmin x y ≤ x)%Qc.
Proof.
  unfold Qcmin. case_decide; [apply Qcle_refl|].
  apply Qclt_le_weak. by apply Qclt_nge.
Qed.



Lemma rect_iadd h w (a : raster) s : rect h w a → rect h w (iadd a s).
Proof.
  intros [Hlen Hall]. split; unfold iadd; [by rewrite length_fmap|].
  apply Forall_fmap. eapply Forall_impl; [exact Hall|].
  intros row Hrow. simpl. by rewrite length_fmap.
Qed.

Lemma get_iadd (a : raster) s r c h w :
  rect h w a → r < h → c < w → get (iadd a s) r c = (get a r c + s)%Qc.
Proof.
  intros Ha Hr Hc.
  destruct (rect_lookup _ _ _ _ _ Ha Hr Hc) as (row & x & Hrow & Hx & ->).
  unfold get, iadd. rewrite list_lookup_fmap, Hrow. simpl.
  by rewrite list_lookup_fmap, Hx.
Qed.

Lemma stretch_same {A} n (l : list A) : length l = n → stretch n l = Some l.
Proof. intros Hl. unfold stretch. by rewrite decide_True. Qed.

Lemma broadcast_to_same h w (b : raster) :
  rect h w b → broadcast_to (h, w) b = Ok b.
Proof.
  intros [Hlen Hall]. unfold broadcast_to. cbn [fst snd].
  rewrite stretch_same by done. simpl.
  assert (Hm : mapM (stretch w) b = Some b).
  { apply mapM_Some. apply Forall2_same_length_lookup_2; [done|].
    intros i x y Hx Hy. rewrite Hx in Hy. injection Hy as <-.
    apply stretch_same. rewrite Forall_lookup in Hall. by eapply Hall. }
  by rewrite Hm.
Qed.

Lemma broadcast_to_shape h w (a b : raster) :
  rect h w a → rect h w b → broadcast_to (shape a) b = Ok b.
Proof.
  intros Ha Hb. destruct h as [|h].
  - apply rect_0_inv in Ha, Hb. by subst.
  - rewrite (rect_shape (S h) w) by (done || lia). by apply broadcast_to_same.
Qed.

Lemma minimum_out_same h w (a b : raster) :
  rect h w a → rect h w b →
  minimum_out a b = Ok (zip_with (zip_with Qcmin) a b).
Proof.
  intros Ha Hb. unfold minimum_out.
  by rewrite (broadcast_to_shape h w).
Qed.

Lemma rect_zip_with h w f (a b : raster) :
  rect h w a → rect h w b → rect h w (zip_with (zip_with f) a b).
Proof.
  intros [Hla Ha] [Hlb Hb]. split.
  - rewrite length_zip_with. lia.
  - apply Forall_lookup. intros r row Hrow.
    apply lookup_zip_with_Some in Hrow as (x & y & -> & Hx & Hy).
    rewrite Forall_lookup in Ha, Hb.
    rewrite length_zip_with, (Ha _ _ Hx), (Hb _ _ Hy). lia.
Qed.

Lemma get_zip_with h w f (a b : raster) r c :
  rect h w a → rect h w b → r < h → c < w →
  get (zip_with (zip_with f) a b) r c = f (get a r c) (get b r c).
Proof.
  intros Ha Hb Hr Hc.
  destruct (rect_lookup _ _ _ _ _ Ha Hr Hc) as (rowa & x & Hrowa & Hx & ->).
  destruct (rect_lookup _ _ _ _ _ Hb Hr Hc) as (rowb & y & Hrowb & Hy & ->).
  unfold get. rewrite lookup_zip_with, Hrowa, Hrowb. simpl.
  by rewrite lookup_zip_with, Hx, Hy.
Qed.

(** ** Slices and strided assignment *)

Lemma rect_drop_last h w (a : raster) : rect h w a → rect (h - 1) w (drop_last a).
Proof.
  intros [Hlen Hall]. unfold drop_last. split.
  - rewrite length_take. lia.
  - by apply Forall_take.
Qed.

Lemma rect_drop_last_cols h w (a : raster) :
  rect h w a → rect h (w - 1) (drop_last <$> a).
Proof.
  intros [Hlen Hall]. split; [by rewrite length_fmap|].
  apply Forall_fmap. eapply Forall_impl; [exact Hall|].
  intros row Hrow. simpl in *. unfold drop_last. rewrite length_take. lia.
Qed.

Lemma get_drop_last (a : raster) r c :
  r < length a - 1 → get (drop_last a) r c = get a r c.
Proof.
  intros Hr. unfold get, drop_last. rewrite lookup_take.
  by rewrite decide_True.
Qed.

Lemma get_drop_last_cols h w (a : raster) r c :
  rect h w a → r < h → c < w - 1 → get (drop_last <$> a) r c = get a r c.
Proof.
  intros Ha Hr Hc.
  destruct (rect_lookup h w a r c) as (row & x & Hrow & Hx & ->);
    [done | done | lia |].
  unfold get, drop_last. rewrite list_lookup_fmap, Hrow. simpl.
  rewrite lookup_take, decide_True, Hx; [done|].
  rewrite (rect_row _ _ _ _ _ Ha Hrow). done.
Qed.

Lemma setitem2_ok h w r0 c0 (out src : raster) :
  0 < h → rect h w out → rect (slice2_len r0 h) (slice2_len c0 w) src →
  setitem2 r0 c0 out src =
  Ok (tabulate (h, w) (λ r c,
        if (r mod 2 =? r0) && (c mod 2 =? c0)
        then get src (r / 2) (c / 2)
        else get out r c)).
Proof.
  intros Hh Hout Hsrc. unfold setitem2.
  rewrite (rect_shape h w) by done. cbn [fst snd].
  by rewrite broadcast_to_same.
Qed.

Lemma half_lt_even n i : i < n → i mod 2 = 0 → i / 2 < (n + 1 - 0) / 2.
Proof.
  intros Hi Hm. apply Nat.Div0.div_lt_upper_bound.
  pose proof (Nat.div_mod_eq i 2). pose proof (Nat.div_mod_eq (n + 1 - 0) 2).
  pose proof (Nat.mod_upper_bound (n + 1 - 0) 2). lia.
Qed.

Lemma half_lt_odd n i : i < n → i mod 2 = 1 → i / 2 < n / 2.
Proof.
  intros Hi Hm. apply Nat.Div0.div_lt_upper_bound.
  pose proof (Nat.div_mod_eq i 2). pose proof (Nat.div_mod_eq n 2).
  pose proof (Nat.mod_upper_bound n 2). lia.
Qed.

Lemma mod2_cases i : i mod 2 = 0 ∨ i mod 2 = 1.
Proof. pose proof (Nat.mod_upper_bound i 2). lia. Qed.

(** The row slice [s0] and the column slice [s1] of [upsample] have the
    shape of the odd-indexed part of the output. *)
Lemma sliced_rows n : (if n mod 2 =? 1 then (n + 1 - 0) / 2 - 1 else (n + 1 - 0) / 2) = n / 2.
Proof.
  pose proof (Nat.div_mod_eq n 2). pose proof (Nat.div_mod_eq (n + 1 - 0) 2).
  pose proof (Nat.mod_upper_bound n 2). pose proof (Nat.mod_upper_bound (n + 1 - 0) 2).
  destruct (Nat.eqb_spec (n mod 2) 1); lia.
Qed.

Lemma upsample_ok h w (coarse out : raster) :
  rect h w out → rect (slice2_len 0 h) (slice2_len 0 w) coarse →
  upsample coarse out = Ok (tabulate (h, w) (λ r c, get coarse (r / 2) (c / 2))).
Proof.
  intros Hout Hco. destruct h as [|h].
  { apply rect_0_inv in Hout, Hco. by subst. }
  assert (Hh : 0 < S h) by lia. revert Hh Hout Hco. generalize (S h). clear h.
  intros h Hh Hout Hco.
  assert (Hs0 : rect (slice2_len 1 h) (slice2_len 0 w)
                  (if h mod 2 =? 1 then drop_last coarse else coarse)).
  { unfold slice2_len in *. replace (h + 1 - 1) with h by lia.
    rewrite <- (sliced_rows h).
    destruct (h mod 2 =? 1); [by apply rect_drop_last | done]. }
  assert (Hs1 : rect (slice2_len 0 h) (slice2_len 1 w)
                  (if w mod 2 =? 1 then drop_last <$> coarse else coarse)).
  { unfold slice2_len in *. replace (w + 1 - 1) with w by lia.
    rewrite <- (sliced_rows w).
    destruct (w mod 2 =? 1); [by apply rect_drop_last_cols | done]. }
  assert (Hs01 : rect (slice2_len 1 h) (slice2_len 1 w)
                  (if h mod 2 =? 1
                   then drop_last (if w mod 2 =? 1 then drop_last <$> coarse else coarse)
                   else (if w mod 2 =? 1 then drop_last <$> coarse else coarse))).
  { revert Hs1. generalize (if w mod 2 =? 1 then drop_last <$> coarse else coarse).
    intros b Hb. unfold slice2_len in *. replace (h + 1 - 1) with h by lia.
    rewrite <- (sliced_rows h).
    destruct (h mod 2 =? 1); [by apply rect_drop_last | done]. }
  unfold upsample. rewrite (rect_shape h w out) by done. cbn [fst snd].
  rewrite (setitem2_ok h w) by done. cbn [mbind result_bind].
  rewrite (setitem2_ok h w) by (done || apply rect_tabulate). cbn [mbind result_bind].
  rewrite (setitem2_ok h w) by (done || apply rect_tabulate). cbn [mbind result_bind].
  rewrite (setitem2_ok h w) by (done || apply rect_tabulate).
  f_equal. apply tabulate_ext. intros r c Hr Hc.
  rewrite !get_tabulate by done.
  pose proof (rect_length _ _ _ Hco) as Hlen. unfold slice2_len in Hlen.
  destruct (mod2_cases r) as [Er|Er], (mod2_cases c) as [Ec|Ec];
    rewrite Er, Ec; cbn [Nat.eqb andb]; try done.
  - (* even row, odd column *)
    pose proof (half_lt_odd _ _ Hc Ec).
    destruct (Nat.eqb_spec (w mod 2) 1); [|done].
    eapply get_drop_last_cols; [exact Hco | by apply half_lt_even |].
    unfold slice2_len. pose proof (sliced_rows w) as Hsl.
    rewrite (proj2 (Nat.eqb_eq _ _) e) in Hsl. lia.
  - (* odd row, even column *)
    pose proof (half_lt_odd _ _ Hr Er).
    destruct (Nat.eqb_spec (h mod 2) 1); [|done].
    apply get_drop_last. rewrite Hlen. pose proof (sliced_rows h) as Hsl.
    rewrite (proj2 (Nat.eqb_eq _ _) e) in Hsl. lia.
  - (* odd row, odd column *)
    pose proof (half_lt_odd _ _ Hr Er) as Hr2.
    pose proof (half_lt_odd _ _ Hc Ec) as Hc2.
    assert (Hcols : get (if w mod 2 =? 1 then drop_last <$> coarse else coarse)
                      (r / 2) (c / 2) = get coarse (r / 2) (c / 2)).
    { destruct (Nat.eqb_spec (w mod 2) 1); [|done].
      eapply get_drop_last_cols; [exact Hco | |].
      - unfold slice2_len. pose proof (sliced_rows h) as Hsl.
        destruct (h mod 2 =? 1); lia.
      - unfold slice2_len. pose proof (sliced_rows w) as Hsl.
        rewrite (proj2 (Nat.eqb_eq _ _) e) in Hsl. lia. }
    destruct (Nat.eqb_spec (h mod 2) 1); [|done].
    rewrite get_drop_last; [done|].
    rewrite (rect_length _ _ _ Hs1). unfold slice2_len.
    pose proof (sliced_rows h) as Hsl.
    rewrite (proj2 (Nat.eqb_eq _ _) e) in Hsl. lia.
Qed.

(** ** The box filter *)

Lemma rect_uniform_filter1d_axis0 h w (a : raster) :
  rect h w a → rect h w (uniform_filter1d_axis0 a).
Proof. unfold uniform_filter1d_axis0. eauto with rect. Qed.

Lemma rect_uniform_filter1d_axis1 h w (a : raster) :
  rect h w a → rect h w (uniform_filter1d_axis1 a).
Proof. unfold uniform_filter1d_axis1. eauto with rect. Qed.

Lemma rect_uniform_filter h w (a : raster) :
  rect h w a → rect h w (uniform_filter a).
Proof.
  intros Ha. by apply rect_uniform_filter1d_axis1, rect_uniform_filter1d_axis0.
Qed.

Lemma prev_index_lt n i : i < n → prev_index i < n.
Proof. unfold prev_index. lia. Qed.

Lemma next_index_lt n i : i < n → next_index n i < n.
Proof. unfold next_index. lia. Qed.

Lemma get_uniform_filter h w (a : raster) r c :
  rect h w a → r < h → c < w →
  get (uniform_filter a) r c =
  (let col c' := ((get a (prev_index r) c' + get a r c'
                   + get a (next_index h r) c') / Qc_of_Z 3)%Qc in
   (col (prev_index c) + col c + col (next_index w c)) / Qc_of_Z 3)%Qc.
Proof.
  intros Ha Hr Hc. assert (Hh : 0 < h) by lia.
  pose proof (rect_uniform_filter1d_axis0 _ _ _ Ha) as Ha0.
  unfold uniform_filter, uniform_filter1d_axis1.
  rewrite (rect_shape h w _ Ha0 Hh). cbn [fst snd].
  rewrite get_tabulate by done.
  unfold uniform_filter1d_axis0. rewrite (rect_shape h w _ Ha Hh). cbn [fst snd].
  rewrite !get_tabulate by (done || by apply prev_index_lt || by apply next_index_lt).
  done.
Qed.

Lemma Qc_of_Z_9 : Qc_of_Z 9 = (Qc_of_Z 3 * Qc_of_Z 3)%Qc.
Proof. by apply Qc_is_canon. Qed.

Lemma Qc_of_Z_3_neq_0 : Qc_of_Z 3 ≠ 0%Qc.
Proof. done. Qed.

Lemma mean3_mean3 (a b c d e f g h i : Qc) :
  (((a + b + c) / Qc_of_Z 3 + (d + e + f) / Qc_of_Z 3 + (g + h + i) / Qc_of_Z 3)
     / Qc_of_Z 3)%Qc
  = ((a + (d + (g + (b + (e + (h + (c + (f + (i + 0))))))))) / Qc_of_Z 9)%Qc.
Proof.
  rewrite Qc_of_Z_9. pose proof Qc_of_Z_3_neq_0.
  generalize dependent (Qc_of_Z 3). intros t Ht. field. done.
Qed.


Lemma clamp_index_prev n i : i < n → Spec.clamp_index n (Z.of_nat i + -1) = prev_index i.
Proof. unfold Spec.clamp_index, prev_index. lia. Qed.

Lemma clamp_index_same n i : i < n → Spec.clamp_index n (Z.of_nat i + 0) = i.
Proof. unfold Spec.clamp_index. lia. Qed.

Lemma clamp_index_next n i : i < n → Spec.clamp_index n (Z.of_nat i + 1) = next_index n i.
Proof. unfold Spec.clamp_index, next_index. lia. Qed.

Lemma uniform_filter_box_average h w (a : raster) :
  rect h w a → uniform_filter a = Spec.box_average a.
Proof.
  intros Ha. symmetry.
  apply (tabulate_shape_eq h w); [done | by apply rect_uniform_filter |].
  intros r c Hr Hc. rewrite (rect_shape h w a) by (done || lia).
  rewrite (get_uniform_filter h w) by done. cbn [fst snd].
  cbv [Spec.window3 mbind list_bind mret list_ret fmap list_fmap foldr app].
  cbn [fst snd].
  rewrite !(clamp_index_prev _ _ Hr), !(clamp_index_same _ _ Hr),
    !(clamp_index_next _ _ Hr), !(clamp_index_prev _ _ Hc),
    !(clamp_index_same _ _ Hc), !(clamp_index_next _ _ Hc).
  cbv zeta. symmetry. apply mean3_mean3.
Qed.

(** ** The relaxation engine *)

Lemma clamp_zip_with h w (d dsm : raster) :
  rect h w d → rect h w dsm →
  zip_with (zip_with Qcmin) d dsm = Spec.clamp d dsm.
Proof.
  intros Hd Hdsm. symmetry.
  apply (tabulate_shape_eq h w); [done | by apply rect_zip_with |].
  intros r c Hr Hc. symmetry. by apply (get_zip_with h w).
Qed.

Lemma lift_iadd h w (d : raster) step :
  rect h w d → iadd d step = Spec.lift d step.
Proof.
  intros Hd. symmetry.
  apply (tabulate_shape_eq h w); [done | by apply rect_iadd |].
  intros r c Hr Hc. symmetry. by apply (get_iadd _ _ _ _ h w).
Qed.

Lemma rect_clamp h w (d dsm : raster) :
  rect h w d → rect h w dsm → rect h w (Spec.clamp d dsm).
Proof.
  intros Hd Hdsm. rewrite <- (clamp_zip_with h w) by done. by apply rect_zip_with.
Qed.

Lemma rect_lift h w (d : raster) step : rect h w d → rect h w (Spec.lift d step).
Proof. intros Hd. rewrite <- (lift_iadd h w) by done. by apply rect_iadd. Qed.

Lemma rect_relax h w (d dsm : raster) :
  rect h w d → rect h w dsm → rect h w (Spec.relax dsm d).
Proof.
  intros Hd Hdsm. unfold Spec.relax.
  rewrite <- (uniform_filter_box_average h w) by by apply rect_clamp.
  by apply rect_uniform_filter, rect_clamp.
Qed.

Lemma rect_iter h w (g : raster → raster) n (d : raster) :
  (∀ d, rect h w d → rect h w (g d)) → rect h w d → rect h w (Nat.iter n g d).
Proof. intros Hg Hd. induction n as [|n IH]; simpl; auto. Qed.

(** A loop over a binding.  Its body computes [g] on the bound array and
    binds the result as a new array; before that, the array the caller
    passed has received [k] of its content if the name still referred to
    it. *)
Lemma repeatM_binding h w (f : binding → result binding)
    (g k : raster → raster) n :
  (∀ b, rect h w (loc b) →
        ∃ b', f b = Ok b' ∧ rect h w (loc b') ∧ loc b' = g (loc b)
              ∧ aliased b' = false
              ∧ arg b' = if aliased b then k (loc b) else arg b) →
  ∀ b, rect h w (loc b) →
       ∃ b', repeatM n f b = Ok b' ∧ rect h w (loc b')
             ∧ loc b' = Nat.iter n g (loc b)
             ∧ match n with
               | O => b' = b
               | S _ => aliased b' = false
                        ∧ arg b' = if aliased b then k (loc b) else arg b
               end.
Proof.
  intros Hf. induction n as [|n IH]; intros b Hb.
  - exists b. by split_and!.
  - destruct (Hf b Hb) as (b1 & E1 & Hb1 & L1 & A1 & R1).
    destruct (IH b1 Hb1) as (b2 & E2 & Hb2 & L2 & I2).
    exists b2. cbn [repeatM]. rewrite E1. cbn [mbind result_bind].
    split_and!; try done.
    + rewrite L2, L1. symmetry. apply Nat.iter_succ_r.
    + destruct n; [by subst b2 | by rewrite (proj1 I2)].
    + destruct n; [by subst b2|]. destruct I2 as [_ ->]. by rewrite A1.
Qed.

(** The loops of [drape_cloth] under a ceiling [dsm] that numpy stretches
    to [dsm'], an array of the shape of the DTM. *)
Section relaxation.
Variables (h w : nat) (dsm dsm' : raster).
Hypothesis ceiling_rect : rect h w dsm'.
Hypothesis ceiling_min : ∀ a : raster,
  rect h w a → minimum_out a dsm = Ok (zip_with (zip_with Qcmin) a dsm').

Lemma drape_inner_ok b :
  rect h w (loc b) →
  ∃ b', drape_inner dsm b = Ok b' ∧ rect h w (loc b')
        ∧ loc b' = Spec.relax dsm' (loc b)
        ∧ aliased b' = false
        ∧ arg b' = if aliased b then Spec.clamp (loc b) dsm' else arg b.
Proof.
  intros Hb. unfold drape_inner.
  rewrite ceiling_min by done. cbn [mbind result_bind].
  eexists. split; [reflexivity|]. cbn [loc arg aliased rebind store].
  rewrite (clamp_zip_with h w) by done.
  rewrite (uniform_filter_box_average h w) by by apply rect_clamp.
  split_and!; try done. exact (rect_relax h w (loc b) dsm' Hb ceiling_rect).
Qed.

Lemma drape_outer_ok step b :
  rect h w (loc b) →
  ∃ b', drape_outer dsm step b = Ok b' ∧ rect h w (loc b')
        ∧ loc b' = Nat.iter 10 (Spec.relax dsm') (Spec.lift (loc b) step)
        ∧ aliased b' = false
        ∧ arg b' = if aliased b
                   then Spec.clamp (Spec.lift (loc b) step) dsm' else arg b.
Proof.
  intros Hb. unfold drape_outer.
  destruct (repeatM_binding h w (drape_inner dsm) (Spec.relax dsm')
              (λ d, Spec.clamp d dsm') 10
              drape_inner_ok (store b (iadd (loc b) step)))
    as (b' & E & Hb' & L & A & R).
  { cbn [loc store]. by apply rect_iadd. }
  exists b'. cbn [loc arg aliased store] in L, R.
  rewrite (lift_iadd h w) in L, R by done.
  split_and!; try done. rewrite R. by destruct (aliased b).
Qed.

(** What [drape_cloth] returns, and what it leaves in the array it was
    given: the first lift and clamp are made in place, the first filter
    binds a new array. *)
Lemma drape_cloth_stretched dtm step num_iter :
  rect h w dtm →
  drape_cloth dtm dsm step num_iter
  = Ok (match num_iter with
        | O => Spec.clamp dtm dsm'
        | S _ => Spec.clamp (Spec.lift dtm step) dsm'
        end,
        Spec.drape dtm dsm' step num_iter).
Proof.
  intros Hdtm. unfold drape_cloth.
  destruct (repeatM_binding h w (drape_outer dsm step)
              (λ d, Nat.iter 10 (Spec.relax dsm') (Spec.lift d step))
              (λ d, Spec.clamp (Spec.lift d step) dsm') num_iter
              (drape_outer_ok step) (Binding dtm dtm true))
    as (b & E & Hb & L & I); [done|].
  rewrite E. cbn [mbind result_bind].
  rewrite ceiling_min by done. cbn [mbind result_bind].
  rewrite (clamp_zip_with h w) by done. unfold Spec.drape.
  cbn [loc arg aliased store] in *. rewrite <- L.
  destruct num_iter as [|n].
  - by subst b.
  - destruct I as [-> ->]. done.
Qed.
End relaxation.

Lemma drape_cloth_same h w (dtm dsm : raster) step num_iter :
  rect h w dtm → rect h w dsm →
  drape_cloth dtm dsm step num_iter
  = Ok (match num_iter with
        | O => Spec.clamp dtm dsm
        | S _ => Spec.clamp (Spec.lift dtm step) dsm
        end,
        Spec.drape dtm dsm step num_iter).
Proof.
  intros Hdtm Hdsm. apply (drape_cloth_stretched h w dsm dsm); [done| |done].
  intros a Ha. by apply (minimum_out_same h w).
Qed.

Lemma drape_cloth_ok h w (dtm dsm : raster) step num_iter :
  rect h w dtm → rect h w dsm →
  ∃ buf, drape_cloth dtm dsm step num_iter
         = Ok (buf, Spec.drape dtm dsm step num_iter).
Proof.
  intros Hdtm Hdsm. eexists. by apply (drape_cloth_same h w).
Qed.

Lemma rect_drape h w (dtm dsm : raster) step n :
  rect h w dtm → rect h w dsm → rect h w (Spec.drape dtm dsm step n).
Proof.
  intros Hdtm Hdsm. unfold Spec.drape. apply rect_clamp; [|done].
  apply rect_iter; [|done]. intros d Hd.
  apply rect_iter; [|by apply rect_lift]. intros d' Hd'. by apply rect_relax.
Qed.

(** ** The multiscale driver *)

Lemma recursive_fit_dtm_base (dtm dsm : raster) step level :
  min_dim dtm ≤ 100 →
  recursive_fit_dtm dtm dsm step level
  = (d ← drape_cloth dtm dsm step 100; Ok (d.1, d.2, level)).
Proof.
  intros Hle. rewrite recursive_fit_dtm_equation_1.
  destruct (le_lt_dec (min_dim dtm) 100) as [?|?]; [reflexivity | lia].
Qed.

Lemma recursive_fit_dtm_rec (dtm dsm : raster) step level :
  100 < min_dim dtm →
  recursive_fit_dtm dtm dsm step level
  = (r ← recursive_fit_dtm (downsample dtm) (downsample dsm) step (level + 1);
     out ← upsample r.1.2 (write_view r.1.1 dtm);
     d ← drape_cloth out dsm (decayed_step step r.2 level) (decayed_iter r.2 level);
     Ok (d.1, d.2, r.2)).
Proof.
  intros Hgt. rewrite recursive_fit_dtm_equation_1.
  destruct (le_lt_dec (min_dim dtm) 100) as [?|?]; [lia | reflexivity].
Qed.

Lemma levels_base m : m ≤ 100 → Spec.levels m = 0.
Proof.
  intros Hm. unfold Spec.levels. apply Nat.log2_up_eqn0.
  apply Nat.lt_succ_r. apply Nat.Div0.div_lt_upper_bound. lia.
Qed.

(** [Spec.levels m] is the least [d] with [m ≤ 100 * 2 ^ d]. *)
Lemma levels_spec m :
  m ≤ 100 * 2 ^ Spec.levels m
  ∧ (0 < Spec.levels m → 100 * 2 ^ (Spec.levels m - 1) < m).
Proof.
  unfold Spec.levels. set (k := (m + 99) / 100).
  pose proof (Nat.div_mod_eq (m + 99) 100) as Hdiv.
  pose proof (Nat.mod_upper_bound (m + 99) 100) as Hmod.
  fold k in Hdiv. destruct (decide (k ≤ 1)) as [Hk|Hk].
  - rewrite Nat.log2_up_eqn0 by done. simpl. lia.
  - destruct (Nat.log2_up_spec k) as [Hlo Hhi]; [lia|].
    replace (Nat.log2_up k - 1) with (pred (Nat.log2_up k)) by lia. lia.
Qed.

Lemma levels_unique m d :
  m ≤ 100 * 2 ^ d → (0 < d → 100 * 2 ^ (d - 1) < m) → Spec.levels m = d.
Proof.
  intros Hhi Hlo. unfold Spec.levels. set (k := (m + 99) / 100).
  pose proof (Nat.div_mod_eq (m + 99) 100) as Hdiv.
  pose proof (Nat.mod_upper_bound (m + 99) 100) as Hmod.
  fold k in Hdiv. destruct d as [|d].
  - apply Nat.log2_up_eqn0. simpl in Hhi. lia.
  - apply Nat.log2_up_unique; [lia|]. cbn [pred].
    replace (S d - 1) with d in Hlo by lia.
    rewrite Nat.pow_succ_r' in *. lia.
Qed.

Lemma levels_step m :
  100 < m → Spec.levels m = S (Spec.levels (slice2_len 0 m)).
Proof.
  intros Hm. unfold slice2_len.
  pose proof (Nat.div_mod_eq (m + 1 - 0) 2) as Hdiv.
  pose proof (Nat.mod_upper_bound (m + 1 - 0) 2) as Hmod.
  destruct (levels_spec ((m + 1 - 0) / 2)) as [Hhi Hlo].
  apply levels_unique.
  - rewrite Nat.pow_succ_r'. lia.
  - intros _. replace (S (Spec.levels ((m + 1 - 0) / 2)) - 1)
      with (Spec.levels ((m + 1 - 0) / 2)) by lia.
    destruct (Spec.levels ((m + 1 - 0) / 2)) as [|d] eqn:Ed.
    + simpl. lia.
    + replace (S d - 1) with d in Hlo by lia.
      rewrite Nat.pow_succ_r'. lia.
Qed.

Lemma rect_downsample h w (a : raster) :
  rect h w a → rect (slice2_len 0 h) (slice2_len 0 w) (downsample a).
Proof.
  intros Ha. unfold downsample. destruct h as [|h].
  - apply rect_0_inv in Ha. subst. apply rect_nil.
  - rewrite (rect_shape (S h) w) by (done || lia). apply rect_tabulate.
Qed.

Lemma rect_write_view h w (v a : raster) : rect h w a → rect h w (write_view v a).
Proof. unfold write_view. eauto with rect. Qed.

Lemma min_dim_rect h w (a : raster) : rect h w a → 0 < h → min_dim a = h `min` w.
Proof. intros Ha Hh. unfold min_dim. by rewrite (rect_shape h w). Qed.

Lemma min_dim_rect_le h w (a : raster) : rect h w a → min_dim a ≤ h `min` w.
Proof.
  intros Ha. destruct h as [|h].
  - apply rect_0_inv in Ha. by subst.
  - rewrite (min_dim_rect (S h) w) by (done || lia). done.
Qed.

Lemma slice2_len_min h w :
  slice2_len 0 h `min` slice2_len 0 w = slice2_len 0 (h `min` w).
Proof.
  unfold slice2_len. destruct (Nat.min_spec h w) as [[? ->]|[? ->]].
  - apply Nat.min_l. apply Nat.Div0.div_le_mono. lia.
  - apply Nat.min_r. apply Nat.Div0.div_le_mono. lia.
Qed.

Lemma slice2_len_lt m : 100 < m → slice2_len 0 m < m.
Proof.
  intros Hm. unfold slice2_len. apply Nat.Div0.div_lt_upper_bound. lia.
Qed.

(** On a DTM and a DSM of one shape the driver returns: it reaches the
    level [Spec.levels] gives, and the fit it returns is the relaxation of
    some seed of the same shape under the DSM. *)
Lemma recursive_fit_dtm_ok h w (dtm dsm : raster) step level :
  rect h w dtm → rect h w dsm →
  ∃ buf seed s n,
    recursive_fit_dtm dtm dsm step level
    = Ok (buf, Spec.drape seed dsm s n, level + Spec.levels (h `min` w))
    ∧ rect h w seed.
Proof.
  remember (h `min` w) as m eqn:Em.
  revert h w dtm dsm level Em.
  induction (lt_wf m) as [m _ IH]. intros h w dtm dsm level Em Hdtm Hdsm.
  destruct (le_lt_dec m 100) as [Hle|Hgt].
  - rewrite recursive_fit_dtm_base
      by (pose proof (min_dim_rect_le _ _ _ Hdtm); lia).
    destruct (drape_cloth_ok h w dtm dsm step 100 Hdtm Hdsm) as [buf E].
    rewrite E. cbn [mbind result_bind fst snd].
    exists buf, dtm, step, 100. rewrite levels_base by done.
    split; [|done]. do 2 f_equal. lia.
  - assert (Hh : 0 < h) by lia.
    rewrite recursive_fit_dtm_rec by (rewrite (min_dim_rect h w); [lia|done..]).
    destruct (IH (slice2_len 0 m) (slice2_len_lt m Hgt)
                (slice2_len 0 h) (slice2_len 0 w)
                (downsample dtm) (downsample dsm) (level + 1))
      as (buf' & seed' & s' & n' & E' & Hseed');
      [by rewrite slice2_len_min, Em | by apply rect_downsample..|].
    rewrite E'. cbn [mbind result_bind fst snd].
    rewrite (upsample_ok h w);
      [| by apply rect_write_view | by apply rect_drape, rect_downsample].
    cbn [mbind result_bind].
    match goal with |- context [drape_cloth ?o dsm ?s ?n] =>
      destruct (drape_cloth_ok h w o dsm s n) as [buf E];
        [apply rect_tabulate | done |];
      rewrite E; exists buf, o, s, n end.
    cbn [mbind result_bind fst snd]. split; [|apply rect_tabulate].
    do 2 f_equal. rewrite (levels_step m) by done. lia.
Qed.

(** ** Constant rasters *)

Lemma rect_full h w v : rect h w (full (h, w) v).
Proof.
  unfold full. cbn [fst snd]. split; [by rewrite length_replicate|].
  apply Forall_replicate. by rewrite length_replicate.
Qed.













(** ** The fit initializer *)

Lemma valid_data_nil (dsm : raster) nd :
  Forall (Forall (λ x, x = nd)) dsm ↔ valid_data dsm nd = [].
Proof.
  unfold valid_data. induction dsm as [|row dsm IH]; simpl.
  - split; [done | constructor].
  - rewrite filter_app, Forall_cons, IH. clear IH. split.
    + intros [Hrow ->]. rewrite app_nil_r.
      induction Hrow as [|x row Hx _ IHrow]; [done|].
      rewrite filter_cons. by rewrite decide_False by (by intros ?).
    + intros [Hrow Hrest]%app_eq_nil. split; [|done].
      induction row as [|x row IHrow]; [constructor|].
      rewrite filter_cons in Hrow. destruct (decide (x ≠ nd)) as [?|Hx]; [done|].
      constructor; [by apply dec_stable | by apply IHrow].
Qed.

Lemma valid_data_Exists (dsm : raster) nd :
  Exists (Exists (λ x, x ≠ nd)) dsm ↔ valid_data dsm nd ≠ [].
Proof.
  rewrite <- valid_data_nil. split.
  - intros Hex Hall. induction Hex as [row dsm Hrow|row dsm _ IH].
    + apply Forall_cons in Hall as [Hall _].
      induction Hrow as [x row Hx|x row _ IHrow].
      * by apply Forall_cons in Hall as [? _].
      * apply Forall_cons in Hall as [_ ?]. by apply IHrow.
    + apply Forall_cons in Hall as [_ ?]. by apply IH.
  - intros Hnall. apply not_Forall_Exists in Hnall; [|apply _].
    eapply Exists_impl; [exact Hnall|]. intros row Hrow. simpl in Hrow.
    apply not_Forall_Exists in Hrow; [|apply _]. done.
Qed.

Lemma rect_fill_nodata h w (dsm : raster) nd maxv :
  rect h w dsm → rect h w (fill_nodata dsm nd maxv).
Proof.
  intros [Hlen Hall]. split; unfold fill_nodata; [by rewrite length_fmap|].
  apply Forall_fmap. eapply Forall_impl; [exact Hall|].
  intros row Hrow. simpl in *. by rewrite length_fmap.
Qed.

(** What [fit_dtm] leaves in the caller's DSM array. *)
Lemma fit_dtm_dsm (dsm : raster) nd :
  (fit_dtm dsm nd).1
  = match amax (valid_data dsm nd) with
    | Ok maxv => fill_nodata dsm nd maxv
    | Raise _ => dsm
    end.
Proof.
  unfold fit_dtm. by destruct (valid_data dsm nd).
Qed.

Lemma fit_dtm_empty (dsm : raster) nd :
  valid_data dsm nd = [] →
  fit_dtm dsm nd
  = (dsm, Raise (ValueError
       "zero-size array to reduction operation minimum which has no identity")).
Proof. intros E. unfold fit_dtm. by rewrite E. Qed.

Lemma fit_dtm_ok h w (dsm : raster) nd x l :
  rect h w dsm → valid_data dsm nd = x :: l →
  let filled := fill_nodata dsm nd (foldl Qcmax x l) in
  ∃ seed s n,
    fit_dtm dsm nd = (filled, Ok (Spec.drape seed filled s n)) ∧ rect h w seed.
Proof.
  intros Hdsm E filled. unfold fit_dtm. rewrite E. cbn [amin amax].
  fold filled.
  assert (Hh : 0 < h).
  { destruct h; [|lia]. apply rect_0_inv in Hdsm. by subst. }
  pose proof (rect_fill_nodata h w dsm nd (foldl Qcmax x l) Hdsm) as Hfilled.
  fold filled in Hfilled. rewrite (rect_shape h w filled) by done.
  destruct (recursive_fit_dtm_ok h w (full (h, w) (foldl Qcmin x l)) filled
              ((foldl Qcmax x l - foldl Qcmin x l) / Qc_of_Z 100)%Qc 0)
    as (buf & seed & s & n & Efit & Hseed); [apply rect_full | done |].
  rewrite Efit. cbn [mbind result_bind fst snd]. by exists seed, s, n.
Qed.



(** ** The decay schedule *)

Lemma Qc_half_nonneg (y : Qc) : (0 ≤ y → 0 ≤ y / Qc_of_Z 2)%Qc.
Proof.
  intros Hy. unfold Qcdiv. apply Qcmult_nonneg_nonneg; [done|].
  apply Qclt_le_weak, Qcinv_pos. done.
Qed.

Lemma Qc_half_le (y : Qc) : (0 ≤ y → y / Qc_of_Z 2 ≤ y)%Qc.
Proof.
  intros Hy.
  assert (E : y = (y / Qc_of_Z 2 + y / Qc_of_Z 2)%Qc).
  { rewrite Z2Qc_inj_2. field. done. }
  rewrite E at 2. rewrite <- (Qcplus_0_r (y / Qc_of_Z 2)) at 1.
  apply Qcplus_le_mono_l. by apply Qc_half_nonneg.
Qed.

Lemma pow2_pos (k : nat) : (0 < 2 ^ Z.of_nat k)%Z.
Proof. apply Z.pow_pos_nonneg; lia. Qed.

Lemma Qc_of_Z_pow2_neq_0 (k : nat) : Qc_of_Z (2 * 2 ^ Z.of_nat k) ≠ 0%Qc.
Proof.
  rewrite <- Z2Qc_inj_0. intros E%Z2Qc_inj. pose proof (pow2_pos k). lia.
Qed.

Lemma decayed_step_succ step max_level level :
  level < max_level →
  decayed_step step max_level level
  = (decayed_step step max_level (S level) / Qc_of_Z 2)%Qc.
Proof.
  intros Hlt. unfold decayed_step.
  replace (max_level - level) with (S (max_level - S level)) by lia.
  rewrite Nat2Z.inj_succ, Z.pow_succ_r by lia.
  pose proof (Qc_of_Z_pow2_neq_0 (max_level - S level)) as Hne.
  rewrite (Z2Qc_inj_mul 2 (2 * _)). rewrite Z2Qc_inj_mul in *.
  revert Hne. generalize (Qc_of_Z (2 ^ Z.of_nat (max_level - S level))).
  intros p Hp. rewrite Z2Qc_inj_2 in *. field. split; [|done].
  intros ->. apply Hp. ring.
Qed.

Lemma decayed_step_nonneg step max_level level :
  (0 ≤ step)%Qc → (0 ≤ decayed_step step max_level level)%Qc.
Proof.
  intros Hs. unfold decayed_step, Qcdiv. apply Qcmult_nonneg_nonneg; [done|].
  apply Qclt_le_weak, Qcinv_pos. rewrite <- Z2Qc_inj_0.
  apply (proj1 (Z2Qc_inj_lt _ _)). apply Z.mul_pos_pos; [lia | apply pow2_pos].
Qed.

Lemma decayed_step_mono step max_level level level' :
  (0 ≤ step)%Qc → level ≤ level' →
  (decayed_step step max_level level ≤ decayed_step step max_level level')%Qc.
Proof.
  intros Hs Hle. induction Hle as [|level' Hle IH]; [apply Qcle_refl|].
  destruct (decide (level' < max_level)) as [Hlt|Hge].
  - etrans; [exact IH|]. rewrite (decayed_step_succ step max_level level') by done.
    apply Qc_half_le. by apply decayed_step_nonneg.
  - etrans; [exact IH|]. unfold decayed_step.
    replace (max_level - S level') with 0 by lia.
    replace (max_level - level') with 0 by lia. apply Qcle_refl.
Qed.

Lemma decayed_step_le step max_level level :
  (0 ≤ step)%Qc → (decayed_step step max_level level ≤ step)%Qc.
Proof.
  intros Hs. etrans; [apply (decayed_step_mono step max_level level (level `max` max_level)); [done | lia]|].
  unfold decayed_step. replace (max_level - level `max` max_level) with 0 by lia.
  change (Qc_of_Z (2 * 2 ^ Z.of_nat 0)) with (Qc_of_Z 2). by apply Qc_half_le.
Qed.

Lemma decayed_iter_bounds max_level level : 1 ≤ decayed_iter max_level level ≤ 100.
Proof.
  unfold decayed_iter. split; [lia|]. apply Nat.max_lub; [lia|].
  apply Nat.Div0.div_le_upper_bound.
  assert (1 ≤ 2 ^ (max_level - level)) by (apply Nat.neq_0_lt_0, Nat.pow_nonzero; lia).
  lia.
Qed.

Lemma decayed_iter_mono max_level level level' :
  level ≤ level' → decayed_iter max_level level ≤ decayed_iter max_level level'.
Proof.
  intros Hle. unfold decayed_iter. apply Nat.max_le_compat_l.
  apply Nat.div_le_compat_l. split.
  - apply Nat.neq_0_lt_0, Nat.pow_nonzero. lia.
  - apply Nat.pow_le_mono_r; lia.
Qed.

(** ** Broadcasting *)

Lemma stretch_length {A} n (l l' : list A) : stretch n l = Some l' → length l' = n.
Proof.
  unfold stretch. case_decide as Hl; [by intros [= <-]|].
  destruct l as [|x [|y l]]; try done. intros [= <-]. apply length_replicate.
Qed.

Lemma stretch_succeeds {A} n (l : list A) :
  is_Some (stretch n l) ↔ length l = n ∨ length l = 1.
Proof.
  unfold stretch. case_decide as Hl; [by split; [left | eexists]|].
  destruct l as [|x [|y l]]; simpl in *.
  - split; [by intros [? ?] | intros [?|?]; lia].
  - split; [by right | by eexists].
  - split; [by intros [? ?] | intros [?|?]; lia].
Qed.

Lemma broadcast_to_rect h w (a b : raster) :
  broadcast_to (h, w) a = Ok b → rect h w b.
Proof.
  unfold broadcast_to. cbn [fst snd].
  destruct (stretch h a) as [rows|] eqn:Erows; [|done]. simpl.
  destruct (mapM (stretch w) rows) as [b'|] eqn:Eb; [|done]. intros [= <-].
  apply mapM_Some in Eb. split.
  - rewrite <- (Forall2_length _ _ _ Eb). by eapply stretch_length.
  - apply Forall_lookup. intros i y Hy.
    destruct (Forall2_lookup_r _ _ _ _ _ Eb Hy) as (x & _ & Hx).
    by eapply stretch_length.
Qed.

Lemma broadcast_to_succeeds h w h' w' (a : raster) :
  rect h' w' a → 0 < h' → 0 < h →
  succeeds (broadcast_to (h, w) a) = broadcastable (h', w') (h, w).
Proof.
  intros [Hlen Hall] Hh' Hh. unfold broadcast_to, broadcastable. cbn [fst snd].
  assert (Hrows : ∀ rows : raster,
             rows ≠ [] → Forall (λ row, length row = w') rows →
             is_Some (mapM (stretch w) rows) ↔ w' = w ∨ w' = 1).
  { intros rows Hne Hrows. rewrite mapM_is_Some. split.
    - intros Hsome. destruct rows as [|row rows]; [done|].
      apply Forall_cons in Hsome as [Hsome _].
      apply Forall_cons in Hrows as [<- _]. by apply stretch_succeeds.
    - intros Hw. eapply Forall_impl; [exact Hrows|].
      intros row <-. by apply stretch_succeeds. }
  destruct (stretch h a) as [rows|] eqn:Erows; simpl.
  - assert (Hh'' : h' = h ∨ h' = 1).
    { rewrite <- Hlen. apply stretch_succeeds. by rewrite Erows. }
    assert (Hr : rows ≠ [] ∧ Forall (λ row, length row = w') rows).
    { unfold stretch in Erows. case_decide.
      - injection Erows as <-. split; [|done]. destruct a; simpl in *; [lia|done].
      - destruct a as [|x [|y a]]; try done. injection Erows as <-.
        split; [destruct h; [lia|done]|].
        apply Forall_replicate. by apply Forall_cons in Hall as [? _]. }
    destruct Hr as [Hne Hrows']. specialize (Hrows rows Hne Hrows').
    replace ((h' =? h) || (h' =? 1)) with true
      by (symmetry; apply orb_true_iff; rewrite !Nat.eqb_eq; done).
    simpl. destruct (mapM (stretch w) rows) as [b|]; simpl.
    + symmetry. apply orb_true_iff. rewrite !Nat.eqb_eq. apply Hrows. by eexists.
    + symmetry. apply orb_false_iff. rewrite !Nat.eqb_neq.
      split; intros ?; by destruct (proj2 Hrows) as [? ?]; [auto|].
  - assert (Hh'' : ¬ (h' = h ∨ h' = 1)).
    { rewrite <- Hlen. intros Hs%stretch_succeeds. rewrite Erows in Hs.
      by destruct Hs. }
    replace ((h' =? h) || (h' =? 1)) with false; [done|].
    symmetry. apply orb_false_iff. rewrite !Nat.eqb_neq. split; intros ?; apply Hh''; auto.
Qed.

Lemma succeeds_Ok {A} (m : result A) : succeeds m = true → ∃ a, m = Ok a.
Proof. destruct m; [by eexists | done]. Qed.

Lemma succeeds_Raise {A} (m : result A) : succeeds m = false → ∃ e, m = Raise e.
Proof. destruct m; [done | by eexists]. Qed.

Lemma repeatM_Raise {A} n (f : A → result A) x e :
  f x = Raise e → repeatM (S n) f x = Raise e.
Proof. intros E. cbn [repeatM]. by rewrite E. Qed.

(** Without a shape check of its own, [drape_cloth] raises exactly when
    numpy cannot stretch the DSM to the shape of the DTM. *)
Lemma drape_cloth_succeeds h w h' w' (dtm dsm : raster) step num_iter :
  rect h w dtm → rect h' w' dsm → 0 < h → 0 < h' →
  succeeds (drape_cloth dtm dsm step num_iter) = broadcastable (h', w') (h, w).
Proof.
  intros Hdtm Hdsm Hh Hh'.
  pose proof (broadcast_to_succeeds h w h' w' dsm Hdsm Hh' Hh) as Hbc.
  destruct (broadcastable (h', w') (h, w)).
  - apply succeeds_Ok in Hbc as [dsm' Edsm'].
    rewrite (drape_cloth_stretched h w dsm dsm' (broadcast_to_rect _ _ _ _ Edsm'));
      [done | | done].
    intros a Ha. unfold minimum_out. by rewrite (rect_shape h w), Edsm'.
  - apply succeeds_Raise in Hbc as [e Ee].
    assert (Hmin : ∀ a : raster, rect h w a → minimum_out a dsm = Raise e).
    { intros a Ha. unfold minimum_out. by rewrite (rect_shape h w), Ee. }
    unfold drape_cloth. destruct num_iter as [|n].
    + cbn [repeatM mbind result_bind loc]. by rewrite Hmin.
    + rewrite (repeatM_Raise _ _ _ e); [done|].
      unfold drape_outer. apply repeatM_Raise. unfold drape_inner.
      cbn [loc store]. rewrite Hmin; [done|]. by apply rect_iadd.
Qed.

Lemma setitem2_rect h w r0 c0 (out src out' : raster) :
  rect h w out → 0 < h → setitem2 r0 c0 out src = Ok out' → rect h w out'.
Proof.
  intros Hout Hh. unfold setitem2. rewrite (rect_shape h w) by done.
  cbn [fst snd]. destruct (broadcast_to _ src); [|done].
  intros [= <-]. apply rect_tabulate.
Qed.

Lemma setitem2_succeeds h w r0 c0 (out src : raster) :
  rect h w out → 0 < h →
  succeeds (setitem2 r0 c0 out src)
  = succeeds (broadcast_to (slice2_len r0 h, slice2_len c0 w) src).
Proof.
  intros Hout Hh. unfold setitem2. rewrite (rect_shape h w) by done.
  cbn [fst snd]. by destruct (broadcast_to _ src).
Qed.

(** [upsample] has no shape check either: it raises exactly when one of its
    four assignments cannot be broadcast. *)
Lemma upsample_succeeds h w (coarse out : raster) :
  rect h w out → 0 < h →
  let s0 (a : raster) := if h mod 2 =? 1 then drop_last a else a in
  let s1 (a : raster) := if w mod 2 =? 1 then drop_last <$> a else a in
  let fits r0 c0 (src : raster) :=
    succeeds (broadcast_to (slice2_len r0 h, slice2_len c0 w) src) in
  succeeds (upsample coarse out)
  = fits 0 0 coarse && fits 1 0 (s0 coarse) && fits 0 1 (s1 coarse)
    && fits 1 1 (s0 (s1 coarse)).
Proof.
  intros Hout Hh s0 s1 fits. subst s0 s1 fits. cbv beta. unfold upsample.
  rewrite (rect_shape h w out) by done. cbn [fst snd].
  pose proof (setitem2_succeeds h w 0 0 out coarse Hout Hh) as E1.
  destruct (setitem2 0 0 out coarse) as [out1|e1] eqn:S1;
    cbn [succeeds] in E1; rewrite <- E1; [|reflexivity].
  pose proof (setitem2_rect h w _ _ _ _ _ Hout Hh S1) as Hout1.
  cbn [mbind result_bind andb].
  match goal with |- context [setitem2 1 0 out1 ?s] =>
    pose proof (setitem2_succeeds h w 1 0 out1 s Hout1 Hh) as E2;
    destruct (setitem2 1 0 out1 s) as [out2|e2] eqn:S2 end;
    cbn [succeeds] in E2; rewrite <- E2; [|reflexivity].
  pose proof (setitem2_rect h w _ _ _ _ _ Hout1 Hh S2) as Hout2.
  cbn [mbind result_bind andb].
  match goal with |- context [setitem2 0 1 out2 ?s] =>
    pose proof (setitem2_succeeds h w 0 1 out2 s Hout2 Hh) as E3;
    destruct (setitem2 0 1 out2 s) as [out3|e3] eqn:S3 end;
    cbn [succeeds] in E3; rewrite <- E3; [|reflexivity].
  pose proof (setitem2_rect h w _ _ _ _ _ Hout2 Hh S3) as Hout3.
  cbn [mbind result_bind andb].
  apply (setitem2_succeeds h w 1 1 out3 _ Hout3 Hh).
Qed.


Lemma fill_nodata_id (dsm : raster) nd maxv :
  Forall (Forall (λ x, x ≠ nd)) dsm → fill_nodata dsm nd maxv = dsm.
Proof.
  intros Hall. unfold fill_nodata.
  induction Hall as [|row dsm Hrow _ IH]; [done|].
  rewrite fmap_cons, IH. f_equal.
  induction Hrow as [|x row Hx _ IHrow]; [done|].
  rewrite fmap_cons, IHrow. by rewrite decide_False.
Qed.

Lemma valid_data_all (dsm : raster) nd :
  Forall (Forall (λ x, x ≠ nd)) dsm → valid_data dsm nd = concat dsm.
Proof.
  intros Hall. unfold valid_data.
  induction Hall as [|row dsm Hrow _ IH]; [done|].
  simpl. rewrite filter_app, IH. f_equal.
  induction Hrow as [|x row Hx _ IHrow]; [done|].
  rewrite filter_cons, decide_True by done. by rewrite IHrow.
Qed.


Lemma foldl_Qcmin_le x (l : list Qc) : (foldl Qcmin x l ≤ x)%Qc.
Proof.
  revert x. induction l as [|y l IH]; intros x; simpl; [apply Qcle_refl|].
  etrans; [apply IH | apply Qcmin_le_l].
Qed.

Lemma Qcmax_ge_l (x y : Qc) : (x ≤ Qcmax x y)%Qc.
Proof. unfold Qcmax. case_decide; [done | apply Qcle_refl]. Qed.

Lemma foldl_Qcmax_ge x (l : list Qc) : (x ≤ foldl Qcmax x l)%Qc.
Proof.
  revert x. induction l as [|y l IH]; intros x; simpl; [apply Qcle_refl|].
  etrans; [apply Qcmax_ge_l | apply IH].
Qed.


(** * The specification, property by property *)



(** C2, as the code has it.  [fit_dtm] writes into the DSM it is given:
    when the DSM holds valid data, every no-data cell is overwritten with
    the largest valid elevation and every other cell keeps its value; when
    it holds none, the call raises and the DSM is left as it was. *)
Theorem fit_dtm_dsm_effect (dsm : raster) nd :
  (fit_dtm dsm nd).1
  = match amax (valid_data dsm nd) with
    | Ok maxv =>
        fmap (M := list)
          (fmap (M := list) (λ x, if decide (x = nd) then maxv else x)) dsm
    | Raise _ => dsm
    end.
Proof. apply fit_dtm_dsm. Qed.

(** C2 fails as stated: a DSM with a no-data cell is changed by the call. *)
Lemma fit_dtm_overwrites_nodata :
  (fit_dtm dsm_gap nodata).1 = [[Qc_of_Z 5; Qc_of_Z 5]; [Qc_of_Z 3; Qc_of_Z 4]]
  ∧ (fit_dtm dsm_gap nodata).1 ≠ dsm_gap.
Proof.
  rewrite fit_dtm_dsm. split; [reflexivity | discriminate].
Qed.



(** C4.  On a DTM and a DSM of one shape [h x w], with [h, w ≥ 1], the
    driver returns.  A downsample maps a dimension [n] to [n / 2] rounded
    up, the recursive case is taken exactly when the smaller dimension
    exceeds 100, and the depth reached (deepest level minus starting
    level) is [Spec.levels (min h w)], the ceiling of the binary logarithm
    of [min h w / 100] taken as 0 below 1: it is 0 when the smaller
    dimension is at most 100, and otherwise the least [d] with
    [min h w ≤ 100 * 2 ^ d]. *)
Theorem recursion_depth h w (dtm dsm : raster) step level :
  rect h w dtm → rect h w dsm → 0 < h → 0 < w →
  ∃ buf fit max_level,
    recursive_fit_dtm dtm dsm step level = Ok (buf, fit, max_level)
    ∧ level ≤ max_level
    ∧ max_level - level = Nat.log2_up ((h `min` w + 99) / 100)
    ∧ h `min` w ≤ 100 * 2 ^ (max_level - level)
    ∧ (h `min` w ≤ 100 ∧ max_level = level
       ∨ 100 < h `min` w ∧ level < max_level
         ∧ 100 * 2 ^ (max_level - level - 1) < h `min` w)
    ∧ min_dim dtm = h `min` w
    ∧ shape (downsample dtm) = ((h + 1) / 2, (w + 1) / 2).
Proof.
  intros Hdtm Hdsm Hh Hw.
  destruct (recursive_fit_dtm_ok h w dtm dsm step level Hdtm Hdsm)
    as (buf & seed & s & n & E & _).
  destruct (levels_spec (h `min` w)) as [Hhi Hlo].
  exists buf, (Spec.drape seed dsm s n), (level + Spec.levels (h `min` w)).
  replace (level + Spec.levels (h `min` w) - level)
    with (Spec.levels (h `min` w)) by lia.
  split_and!; try done; try lia.
  - destruct (le_lt_dec (h `min` w) 100) as [Hle|Hgt].
    + left. rewrite levels_base by done. lia.
    + right. rewrite levels_step in * by done.
      replace (S (Spec.levels (slice2_len 0 (h `min` w))) - 1)
        with (Spec.levels (slice2_len 0 (h `min` w))) in * by lia.
      split_and!; [done | lia | apply Hlo; lia].
  - by apply (min_dim_rect h w).
  - pose proof (rect_downsample h w dtm Hdtm) as Hd.
    unfold slice2_len in Hd. rewrite !Nat.sub_0_r in Hd.
    apply rect_shape; [done|]. apply Nat.div_str_pos. lia.
Qed.

Lemma recursion_depth_witness :
  rect 201 150 dtm_large ∧ rect 201 150 dsm_large ∧ 0 < 201 ∧ 0 < 150
  ∧ ∃ buf fit max_level,
      recursive_fit_dtm dtm_large dsm_large 1%Qc 0 = Ok (buf, fit, max_level)
      ∧ 0 ≤ max_level
      ∧ max_level - 0 = Nat.log2_up ((201 `min` 150 + 99) / 100)
      ∧ 201 `min` 150 ≤ 100 * 2 ^ (max_level - 0)
      ∧ (201 `min` 150 ≤ 100 ∧ max_level = 0
         ∨ 100 < 201 `min` 150 ∧ 0 < max_level
           ∧ 100 * 2 ^ (max_level - 0 - 1) < 201 `min` 150)
      ∧ min_dim dtm_large = 201 `min` 150
      ∧ shape (downsample dtm_large) = ((201 + 1) / 2, (150 + 1) / 2).
Proof.
  assert (H1 : rect 201 150 dtm_large) by apply rect_full.
  assert (H2 : rect 201 150 dsm_large) by apply rect_full.
  assert (H3 : 0 < 201) by lia.
  assert (H4 : 0 < 150) by lia.
  split; [exact H1|]. split; [exact H2|]. split; [exact H3|]. split; [exact H4|].
  exact (recursion_depth 201 150 dtm_large dsm_large 1%Qc 0 H1 H2 H3 H4).
Defined.

(** C5.  On a DTM and a DSM of one shape, [drape_cloth] returns the raster
    the specification describes: [num_iter] rounds of (add [step] to every
    cell, then ten times (clamp every cell to the DSM, then replace the
    raster by its 3x3 box average over the window with indices clamped
    into the raster)), followed by one more clamp to the DSM.  The array
    it was given is left holding the first lift and clamp. *)
Theorem drape_cloth_refines h w (dtm dsm : raster) step num_iter :
  rect h w dtm → rect h w dsm →
  drape_cloth dtm dsm step num_iter
  = Ok (match num_iter with
        | O => Spec.clamp dtm dsm
        | S _ => Spec.clamp (Spec.lift dtm step) dsm
        end,
        Spec.drape dtm dsm step num_iter).
Proof. apply drape_cloth_same. Qed.

Lemma drape_cloth_refines_witness :
  rect 2 2 dtm_2x2 ∧ rect 2 2 dsm_2x2
  ∧ drape_cloth dtm_2x2 dsm_2x2 1%Qc 3
    = Ok (Spec.clamp (Spec.lift dtm_2x2 1%Qc) dsm_2x2,
          Spec.drape dtm_2x2 dsm_2x2 1%Qc 3).
Proof.
  assert (H1 : rect 2 2 dtm_2x2) by (split; [reflexivity | repeat constructor]).
  assert (H2 : rect 2 2 dsm_2x2) by (split; [reflexivity | repeat constructor]).
  split; [exact H1|]. split; [exact H2|].
  exact (drape_cloth_refines 2 2 dtm_2x2 dsm_2x2 1%Qc 3 H1 H2).
Defined.

(** One round on the sample: the cloth is lifted by 1, clamped and
    smoothed ten times, and clamped again. *)
Example drape_cloth_2x2 :
  (λ r, fmap (M := list) (fmap (M := list) this) r.2)
    <$> drape_cloth dtm_2x2 dsm_2x2 1%Qc 1
  = Ok [[(7061020 # 4782969)%Q; 1%Q];
        [(22455751 # 14348907)%Q; (7061344 # 4782969)%Q]].
Proof. vm_compute. reflexivity. Qed.

(** C6.  Into an output buffer of shape [h x w], from a coarse raster of
    shape [(h+1)/2 x (w+1)/2], [upsample] raises nothing and keeps the
    shape of the buffer; afterwards every cell [(r, c)] of the buffer holds
    the coarse cell [(r / 2, c / 2)].  Read block by block: the coarse cell
    [(i, j)] lands in the cells [(2i, 2j)], [(2i+1, 2j)], [(2i, 2j+1)] and
    [(2i+1, 2j+1)] of the buffer, as far as these lie inside it, so that
    an odd last row or column gets the even-indexed assignment only. *)
Theorem upsample_blocks h w (coarse out : raster) :
  rect h w out → rect ((h + 1) / 2) ((w + 1) / 2) coarse →
  ∃ out',
    upsample coarse out = Ok out'
    ∧ rect h w out'
    ∧ (∀ r c, r < h → c < w → get out' r c = get coarse (r / 2) (c / 2))
    ∧ (∀ i j, 2 * i < h → 2 * j < w →
         get out' (2 * i) (2 * j) = get coarse i j
         ∧ (2 * i + 1 < h → get out' (2 * i + 1) (2 * j) = get coarse i j)
         ∧ (2 * j + 1 < w → get out' (2 * i) (2 * j + 1) = get coarse i j)
         ∧ (2 * i + 1 < h → 2 * j + 1 < w →
            get out' (2 * i + 1) (2 * j + 1) = get coarse i j)).
Proof.
  intros Hout Hco.
  assert (Hget : ∀ r c, r < h → c < w →
            get (tabulate (h, w) (λ r c, get coarse (r / 2) (c / 2))) r c
            = get coarse (r / 2) (c / 2)).
  { intros r c Hr Hc. by rewrite get_tabulate. }
  assert (He : ∀ i, (2 * i) / 2 = i).
  { intros i. rewrite Nat.mul_comm. apply Nat.div_mul. lia. }
  assert (Ho : ∀ i, (2 * i + 1) / 2 = i).
  { intros i. symmetry. apply (Nat.div_unique _ _ _ 1); lia. }
  exists (tabulate (h, w) (λ r c, get coarse (r / 2) (c / 2))).
  split_and!.
  - apply upsample_ok; [done|]. unfold slice2_len. by rewrite !Nat.sub_0_r.
  - apply rect_tabulate.
  - exact Hget.
  - intros i j Hi Hj. split_and!.
    + by rewrite Hget, !He.
    + intros Hi'. by rewrite Hget, Ho, He.
    + intros Hj'. by rewrite Hget, Ho, He.
    + intros Hi' Hj'. by rewrite Hget, !Ho.
Qed.

Lemma upsample_blocks_witness :
  rect 3 3 out_3x3 ∧ rect ((3 + 1) / 2) ((3 + 1) / 2) dtm_2x2
  ∧ ∃ out',
      upsample dtm_2x2 out_3x3 = Ok out'
      ∧ rect 3 3 out'
      ∧ (∀ r c, r < 3 → c < 3 → get out' r c = get dtm_2x2 (r / 2) (c / 2))
      ∧ (∀ i j, 2 * i < 3 → 2 * j < 3 →
           get out' (2 * i) (2 * j) = get dtm_2x2 i j
           ∧ (2 * i + 1 < 3 → get out' (2 * i + 1) (2 * j) = get dtm_2x2 i j)
           ∧ (2 * j + 1 < 3 → get out' (2 * i) (2 * j + 1) = get dtm_2x2 i j)
           ∧ (2 * i + 1 < 3 → 2 * j + 1 < 3 →
              get out' (2 * i + 1) (2 * j + 1) = get dtm_2x2 i j)).
Proof.
  assert (H1 : rect 3 3 out_3x3) by (split; [reflexivity | repeat constructor]).
  assert (H2 : rect ((3 + 1) / 2) ((3 + 1) / 2) dtm_2x2)
    by (split; [reflexivity | repeat constructor]).
  split; [exact H1|]. split; [exact H2|].
  exact (upsample_blocks 3 3 dtm_2x2 out_3x3 H1 H2).
Defined.

(** What [upsample] writes on the sample above. *)
Example upsample_3x3 :
  upsample dtm_2x2 out_3x3
  = Ok [[Qc_of_Z 1; Qc_of_Z 1; Qc_of_Z 2];
        [Qc_of_Z 1; Qc_of_Z 1; Qc_of_Z 2];
        [Qc_of_Z 5; Qc_of_Z 5; Qc_of_Z 7]].
Proof. reflexivity. Qed.

(** C7.  The driver runs the relaxation once per level.  At the coarsest
    level (smaller dimension at most 100) it runs 100 outer iterations at
    the step it was given.  At any other level it runs, on the upsampled
    coarse fit, [max 1 (100 / 2 ^ k)] outer iterations at the step
    [step / (2 * 2 ^ k)], where [k] is the deepest level minus this level.
    For a step that is not negative, as [fit_dtm] passes, both are
    non-increasing as the level decreases, neither exceeds what the
    coarsest level uses, and the iteration count is at least 1. *)
Theorem decay_schedule (dtm dsm : raster) step level max_level level1 level2 :
  (0 ≤ step)%Qc → level1 ≤ level2 →
  recursive_fit_dtm dtm dsm step level
  = (if decide (min_dim dtm ≤ 100)
     then d ← drape_cloth dtm dsm step 100; Ok (d.1, d.2, level)
     else r ← recursive_fit_dtm (downsample dtm) (downsample dsm) step (level + 1);
          out ← upsample r.1.2 (write_view r.1.1 dtm);
          d ← drape_cloth out dsm
                (step / Qc_of_Z (2 * 2 ^ Z.of_nat (r.2 - level)))%Qc
                (Nat.max 1 (100 / 2 ^ (r.2 - level)));
          Ok (d.1, d.2, r.2))
  ∧ decayed_step step max_level level1
    = (step / Qc_of_Z (2 * 2 ^ Z.of_nat (max_level - level1)))%Qc
  ∧ decayed_iter max_level level1 = Nat.max 1 (100 / 2 ^ (max_level - level1))
  ∧ (decayed_step step max_level level1 ≤ decayed_step step max_level level2)%Qc
  ∧ (decayed_step step max_level level2 ≤ step)%Qc
  ∧ decayed_iter max_level level1 ≤ decayed_iter max_level level2
  ∧ decayed_iter max_level level2 ≤ 100
  ∧ 1 ≤ decayed_iter max_level level1.
Proof.
  intros Hstep Hle. split_and!.
  - case_decide as Hdim.
    + by apply recursive_fit_dtm_base.
    + apply recursive_fit_dtm_rec. lia.
  - reflexivity.
  - reflexivity.
  - by apply decayed_step_mono.
  - by apply decayed_step_le.
  - by apply decayed_iter_mono.
  - apply decayed_iter_bounds.
  - apply decayed_iter_bounds.
Qed.

Lemma decay_schedule_witness :
  (0 ≤ Qc_of_Z 8)%Qc ∧ 0 ≤ 1
  ∧ recursive_fit_dtm dtm_large dsm_large (Qc_of_Z 8) 0
    = (if decide (min_dim dtm_large ≤ 100)
       then d ← drape_cloth dtm_large dsm_large (Qc_of_Z 8) 100; Ok (d.1, d.2, 0)
       else r ← recursive_fit_dtm (downsample dtm_large) (downsample dsm_large)
                  (Qc_of_Z 8) (0 + 1);
            out ← upsample r.1.2 (write_view r.1.1 dtm_large);
            d ← drape_cloth out dsm_large
                  (Qc_of_Z 8 / Qc_of_Z (2 * 2 ^ Z.of_nat (r.2 - 0)))%Qc
                  (Nat.max 1 (100 / 2 ^ (r.2 - 0)));
            Ok (d.1, d.2, r.2))
  ∧ decayed_step (Qc_of_Z 8) 1 0
    = (Qc_of_Z 8 / Qc_of_Z (2 * 2 ^ Z.of_nat (1 - 0)))%Qc
  ∧ decayed_iter 1 0 = Nat.max 1 (100 / 2 ^ (1 - 0))
  ∧ (decayed_step (Qc_of_Z 8) 1 0 ≤ decayed_step (Qc_of_Z 8) 1 1)%Qc
  ∧ (decayed_step (Qc_of_Z 8) 1 1 ≤ Qc_of_Z 8)%Qc
  ∧ decayed_iter 1 0 ≤ decayed_iter 1 1
  ∧ decayed_iter 1 1 ≤ 100
  ∧ 1 ≤ decayed_iter 1 0.
Proof.
  assert (H1 : (0 ≤ Qc_of_Z 8)%Qc) by discriminate.
  assert (H2 : 0 ≤ 1) by lia.
  split; [exact H1|]. split; [exact H2|].
  exact (decay_schedule dtm_large dsm_large (Qc_of_Z 8) 0 1 0 1 H1 H2).
Defined.

(** The schedule on a two-level pyramid with step 8: the coarsest level
    runs 100 iterations at step 8, the level above it 50 at step 2. *)
Example decay_two_levels :
  decayed_step (Qc_of_Z 8) 1 0 = Qc_of_Z 2 ∧ decayed_iter 1 0 = 50.
Proof. split; [by apply Qc_is_canon | reflexivity]. Qed.

(** C8.  On a DSM of shape [h x w] with a valid cell, the raster [fit_dtm]
    returns has the shape of the DSM. *)
Theorem fit_dtm_shape h w (dsm : raster) nd :
  rect h w dsm → Exists (Exists (λ x, x ≠ nd)) dsm →
  ∃ dtm, (fit_dtm dsm nd).2 = Ok dtm ∧ rect h w dtm ∧ shape dtm = shape dsm.
Proof.
  intros Hdsm Hvalid. apply valid_data_Exists in Hvalid.
  destruct (valid_data dsm nd) as [|x l] eqn:E; [done|].
  destruct (fit_dtm_ok h w dsm nd x l Hdsm E) as (seed & s & n & Efit & Hseed).
  assert (Hh : 0 < h).
  { destruct h; [|lia]. apply rect_0_inv in Hdsm. by subst. }
  pose proof (rect_fill_nodata h w dsm nd (foldl Qcmax x l) Hdsm) as Hfilled.
  pose proof (rect_drape h w seed _ s n Hseed Hfilled) as Hfit.
  eexists. rewrite Efit. split_and!; [done | exact Hfit |].
  by rewrite (rect_shape h w _ Hfit), (rect_shape h w _ Hdsm).
Qed.

Lemma fit_dtm_shape_witness :
  rect 2 2 dsm_gap ∧ Exists (Exists (λ x, x ≠ nodata)) dsm_gap
  ∧ ∃ dtm, (fit_dtm dsm_gap nodata).2 = Ok dtm ∧ rect 2 2 dtm
           ∧ shape dtm = shape dsm_gap.
Proof.
  assert (Hrect : rect 2 2 dsm_gap) by (split; [reflexivity | repeat constructor]).
  assert (Hvalid : Exists (Exists (λ x, x ≠ nodata)) dsm_gap).
  { apply Exists_cons_hd, Exists_cons_tl, Exists_cons_hd. discriminate. }
  split; [exact Hrect|]. split; [exact Hvalid|].
  exact (fit_dtm_shape 2 2 dsm_gap nodata Hrect Hvalid).
Defined.

(** C9, as the code has it.  Neither [drape_cloth] nor [upsample] checks
    shapes; numpy's broadcasting decides.  [drape_cloth] raises exactly
    when some dimension of the DSM is neither that of the DTM nor 1, and
    otherwise relaxes under the stretched DSM; [upsample] raises exactly
    when one of its four assignments cannot be broadcast to the slice it
    assigns to. *)
Theorem shape_mismatch_broadcasts h w h' w' (a b : raster) step num_iter :
  rect h w a → rect h' w' b → 0 < h → 0 < h' →
  succeeds (drape_cloth a b step num_iter) = broadcastable (h', w') (h, w)
  ∧ (∀ b', broadcast_to (h, w) b = Ok b' →
       ∃ buf, drape_cloth a b step num_iter
              = Ok (buf, Spec.drape a b' step num_iter))
  ∧ succeeds (upsample b a)
    = succeeds (broadcast_to (slice2_len 0 h, slice2_len 0 w) b)
      && succeeds (broadcast_to (slice2_len 1 h, slice2_len 0 w)
                     (if h mod 2 =? 1 then drop_last b else b))
      && succeeds (broadcast_to (slice2_len 0 h, slice2_len 1 w)
                     (if w mod 2 =? 1 then drop_last <$> b else b))
      && succeeds (broadcast_to (slice2_len 1 h, slice2_len 1 w)
                     (if h mod 2 =? 1
                      then drop_last (if w mod 2 =? 1 then drop_last <$> b else b)
                      else (if w mod 2 =? 1 then drop_last <$> b else b))).
Proof.
  intros Ha Hb Hh Hh'. split_and!.
  - by apply drape_cloth_succeeds.
  - intros b' Eb'. eexists.
    apply (drape_cloth_stretched h w b b' (broadcast_to_rect _ _ _ _ Eb')); [|done].
    intros d Hd. unfold minimum_out. by rewrite (rect_shape h w), Eb'.
  - exact (upsample_succeeds h w b a Ha Hh).
Qed.

Lemma shape_mismatch_broadcasts_witness :
  rect 2 2 dtm_2x2 ∧ rect 1 1 dsm_1x1 ∧ 0 < 2 ∧ 0 < 1
  ∧ succeeds (drape_cloth dtm_2x2 dsm_1x1 1%Qc 3) = broadcastable (1, 1) (2, 2)
  ∧ (∀ b', broadcast_to (2, 2) dsm_1x1 = Ok b' →
       ∃ buf, drape_cloth dtm_2x2 dsm_1x1 1%Qc 3
              = Ok (buf, Spec.drape dtm_2x2 b' 1%Qc 3))
  ∧ succeeds (upsample dsm_1x1 dtm_2x2)
    = succeeds (broadcast_to (slice2_len 0 2, slice2_len 0 2) dsm_1x1)
      && succeeds (broadcast_to (slice2_len 1 2, slice2_len 0 2)
                     (if 2 mod 2 =? 1 then drop_last dsm_1x1 else dsm_1x1))
      && succeeds (broadcast_to (slice2_len 0 2, slice2_len 1 2)
                     (if 2 mod 2 =? 1 then drop_last <$> dsm_1x1 else dsm_1x1))
      && succeeds (broadcast_to (slice2_len 1 2, slice2_len 1 2)
                     (if 2 mod 2 =? 1
                      then drop_last (if 2 mod 2 =? 1 then drop_last <$> dsm_1x1
                                      else dsm_1x1)
                      else (if 2 mod 2 =? 1 then drop_last <$> dsm_1x1
                            else dsm_1x1))).
Proof.
  assert (H1 : rect 2 2 dtm_2x2) by (split; [reflexivity | repeat constructor]).
  assert (H2 : rect 1 1 dsm_1x1) by (split; [reflexivity | repeat constructor]).
  assert (H3 : 0 < 2) by lia.
  assert (H4 : 0 < 1) by lia.
  split; [exact H1|]. split; [exact H2|]. split; [exact H3|]. split; [exact H4|].
  exact (shape_mismatch_broadcasts 2 2 1 1 dtm_2x2 dsm_1x1 1%Qc 3 H1 H2 H3 H4).
Defined.

(** C9 fails as stated: a 1x1 DSM under a 2x2 DTM is stretched, not
    refused, and a 1x1 coarse raster is copied into all of a 4x4 buffer. *)
Lemma shape_mismatch_not_raised :
  shape dtm_2x2 ≠ shape dsm_1x1
  ∧ drape_cloth dtm_2x2 dsm_1x1 1%Qc 0
    = Ok ([[Qc_of_Z 1; Qc_of_Z 2]; [Qc_of_Z 3; Qc_of_Z 3]],
          [[Qc_of_Z 1; Qc_of_Z 2]; [Qc_of_Z 3; Qc_of_Z 3]])
  ∧ succeeds (drape_cloth dtm_2x2 dsm_1x1 1%Qc 1) = true
  ∧ shape dsm_1x1 ≠ ((4 + 1) / 2, (4 + 1) / 2)
  ∧ upsample dsm_1x1 out_4x4 = Ok (full (4, 4) (Qc_of_Z 3)).
Proof.
  split_and!; [discriminate | reflexivity | by vm_compute | discriminate | reflexivity].
Qed.



(** * Further properties of the fit *)

(** ** Cell-wise relations between two runs *)



(** Two runs of the driver whose inputs are related cell by cell, by a
    relation that adding a step, taking a minimum and taking the mean of
    three values respect, give fits that are related cell by cell. *)
Section related_runs.
Variables (R S : Qc → Qc → Prop).
Hypothesis R_add : ∀ x y s t, R x y → S s t → R (x + s)%Qc (y + t)%Qc.
Hypothesis R_min : ∀ x y x' y', R x y → R x' y' → R (Qcmin x x') (Qcmin y y').
Hypothesis R_mean : ∀ a a' b b' c c', R a a' → R b b' → R c c' →
  R ((a + b + c) / Qc_of_Z 3)%Qc ((a' + b' + c') / Qc_of_Z 3)%Qc.
Hypothesis S_decay : ∀ s t max_level level,
  S s t → S (decayed_step s max_level level) (decayed_step t max_level level).









End related_runs.

(** ** Order *)











(** ** The range of valid elevations *)

Lemma foldl_Qcmin_elem x (l : list Qc) : foldl Qcmin x l ∈ x :: l.
Proof.
  revert x. induction l as [|y l IH]; intros x; simpl; [apply list_elem_of_here|].
  specialize (IH (Qcmin x y)). apply elem_of_cons in IH as [E|IH].
  - rewrite E. unfold Qcmin. case_decide; [apply list_elem_of_here|].
    apply list_elem_of_further, list_elem_of_here.
  - by do 2 apply list_elem_of_further.
Qed.

Lemma foldl_Qcmax_elem x (l : list Qc) : foldl Qcmax x l ∈ x :: l.
Proof.
  revert x. induction l as [|y l IH]; intros x; simpl; [apply list_elem_of_here|].
  specialize (IH (Qcmax x y)). apply elem_of_cons in IH as [E|IH].
  - rewrite E. unfold Qcmax. case_decide; [|apply list_elem_of_here].
    apply list_elem_of_further, list_elem_of_here.
  - by do 2 apply list_elem_of_further.
Qed.

Lemma foldl_Qcmin_lb x (l : list Qc) y : y ∈ x :: l → (foldl Qcmin x l ≤ y)%Qc.
Proof.
  revert x. induction l as [|z l IH]; intros x Hy.
  - apply elem_of_cons in Hy as [->|Hy]; [apply Qcle_refl|].
    by apply elem_of_nil in Hy.
  - simpl. apply elem_of_cons in Hy as [->|Hy].
    + etrans; [apply foldl_Qcmin_le | apply Qcmin_le_l].
    + apply elem_of_cons in Hy as [->|Hy].
      * etrans; [apply foldl_Qcmin_le | apply Qcmin_le_r].
      * apply IH. by apply list_elem_of_further.
Qed.

Lemma Qcmax_ge_r (x y : Qc) : (y ≤ Qcmax x y)%Qc.
Proof.
  unfold Qcmax. case_decide; [apply Qcle_refl|].
  apply Qclt_le_weak. by apply Qclt_nge.
Qed.

Lemma foldl_Qcmax_ub x (l : list Qc) y : y ∈ x :: l → (y ≤ foldl Qcmax x l)%Qc.
Proof.
  revert x. induction l as [|z l IH]; intros x Hy.
  - apply elem_of_cons in Hy as [->|Hy]; [apply Qcle_refl|].
    by apply elem_of_nil in Hy.
  - simpl. apply elem_of_cons in Hy as [->|Hy].
    + etrans; [apply Qcmax_ge_l | apply foldl_Qcmax_ge].
    + apply elem_of_cons in Hy as [->|Hy].
      * etrans; [apply Qcmax_ge_r | apply foldl_Qcmax_ge].
      * apply IH. by apply list_elem_of_further.
Qed.

Lemma elem_of_concat (x : Qc) (a : raster) :
  x ∈ concat a ↔ ∃ row, row ∈ a ∧ x ∈ row.
Proof.
  induction a as [|row a IH]; simpl.
  - split; [by intros ?%elem_of_nil | by intros (? & ?%elem_of_nil & _)].
  - rewrite elem_of_app, IH. split.
    + intros [Hx|(row' & Hrow' & Hx)].
      * exists row. split; [apply list_elem_of_here | done].
      * exists row'. split; [by apply list_elem_of_further | done].
    + intros (row' & Hrow' & Hx). apply elem_of_cons in Hrow' as [->|Hrow'].
      * by left.
      * right. by exists row'.
Qed.

Lemma valid_data_elem (dsm : raster) nd x :
  x ∈ valid_data dsm nd ↔ x ≠ nd ∧ ∃ row, row ∈ dsm ∧ x ∈ row.
Proof. unfold valid_data. by rewrite list_elem_of_filter, elem_of_concat. Qed.

(** Every cell of the gap-filled DSM lies in the range of the valid
    elevations, and none of them holds the no-data value. *)
Lemma fill_nodata_range (dsm : raster) nd x l :
  valid_data dsm nd = x :: l →
  Forall (Forall (λ y, (foldl Qcmin x l ≤ y ≤ foldl Qcmax x l)%Qc ∧ y ≠ nd))
         (fill_nodata dsm nd (foldl Qcmax x l)).
Proof.
  intros E. unfold fill_nodata.
  assert (Hmax : foldl Qcmax x l ∈ valid_data dsm nd)
    by (rewrite E; apply foldl_Qcmax_elem).
  assert (Hmin : foldl Qcmin x l ∈ valid_data dsm nd)
    by (rewrite E; apply foldl_Qcmin_elem).
  apply Forall_fmap, Forall_forall. intros row Hrow. simpl.
  apply Forall_fmap, Forall_forall. intros y Hy. simpl.
  case_decide as Hnd.
  - split_and!.
    + apply foldl_Qcmin_lb. by rewrite <- E.
    + apply Qcle_refl.
    + by apply valid_data_elem in Hmax as [? _].
  - assert (Hv : y ∈ valid_data dsm nd).
    { apply valid_data_elem. split; [done|]. by exists row. }
    rewrite E in Hv. split_and!; [by apply foldl_Qcmin_lb | by apply foldl_Qcmax_ub | done].
Qed.





(** ** The DSM after the call *)

Lemma foldl_Qcmin_unique x (l : list Qc) m :
  m ∈ x :: l → (∀ y, y ∈ x :: l → (m ≤ y)%Qc) → foldl Qcmin x l = m.
Proof.
  intros Hm Hlb. apply (anti_symm Qcle).
  - by apply foldl_Qcmin_lb.
  - apply Hlb, foldl_Qcmin_elem.
Qed.

Lemma foldl_Qcmax_unique x (l : list Qc) m :
  m ∈ x :: l → (∀ y, y ∈ x :: l → (y ≤ m)%Qc) → foldl Qcmax x l = m.
Proof.
  intros Hm Hub. apply (anti_symm Qcle).
  - apply Hub, foldl_Qcmax_elem.
  - by apply foldl_Qcmax_ub.
Qed.

Lemma Forall_concat_elem (P : Qc → Prop) (a : raster) y :
  Forall (Forall P) a → y ∈ concat a → P y.
Proof.
  intros HP (row & Hrow & Hy)%elem_of_concat.
  rewrite Forall_forall in HP. specialize (HP _ Hrow).
  rewrite Forall_forall in HP. by apply HP.
Qed.

Lemma fill_nodata_keeps (dsm : raster) nd maxv y :
  y ∈ valid_data dsm nd → y ∈ concat (fill_nodata dsm nd maxv).
Proof.
  intros (Hy & row & Hrow & Hyrow)%valid_data_elem.
  apply elem_of_concat.
  exists ((λ x, if decide (x = nd) then maxv else x) <$> row). split.
  - unfold fill_nodata. by apply list_elem_of_fmap_2.
  - apply list_elem_of_fmap. exists y. split; [by rewrite decide_False | done].
Qed.

(** The valid data of the gap-filled DSM are all its cells, and their
    smallest and largest are those of the DSM before the fill. *)
Lemma valid_data_filled (dsm : raster) nd x l :
  valid_data dsm nd = x :: l →
  let filled := fill_nodata dsm nd (foldl Qcmax x l) in
  ∃ y l', valid_data filled nd = y :: l'
          ∧ foldl Qcmin y l' = foldl Qcmin x l
          ∧ foldl Qcmax y l' = foldl Qcmax x l
          ∧ fill_nodata filled nd (foldl Qcmax x l) = filled.
Proof.
  intros E filled. pose proof (fill_nodata_range dsm nd x l E) as Hrange.
  fold filled in Hrange.
  assert (Hvalid : Forall (Forall (λ y, y ≠ nd)) filled).
  { eapply Forall_impl; [exact Hrange|]. intros row Hrow. simpl in Hrow.
    eapply Forall_impl; [exact Hrow|]. by intros y [_ ?]. }
  assert (Hmin : foldl Qcmin x l ∈ concat filled).
  { apply fill_nodata_keeps. rewrite E. apply foldl_Qcmin_elem. }
  assert (Hmax : foldl Qcmax x l ∈ concat filled).
  { apply fill_nodata_keeps. rewrite E. apply foldl_Qcmax_elem. }
  rewrite (valid_data_all filled nd Hvalid).
  destruct (concat filled) as [|y l'] eqn:Ec; [by apply elem_of_nil in Hmin|].
  exists y, l'. split_and!; [done | | | by apply fill_nodata_id].
  - apply foldl_Qcmin_unique; [done|]. intros z Hz. rewrite <- Ec in Hz.
    by destruct (Forall_concat_elem _ _ _ Hrange Hz) as [[? _] _].
  - apply foldl_Qcmax_unique; [done|]. intros z Hz. rewrite <- Ec in Hz.
    by destruct (Forall_concat_elem _ _ _ Hrange Hz) as [[_ ?] _].
Qed.

(** X4.  After a call that found valid data, no cell of the caller's DSM
    holds the no-data value any more. *)
Theorem fit_dtm_leaves_no_nodata (dsm : raster) nd :
  Exists (Exists (λ x, x ≠ nd)) dsm →
  Forall (Forall (λ x, x ≠ nd)) (fit_dtm dsm nd).1.
Proof.
  intros Hvalid. apply valid_data_Exists in Hvalid.
  destruct (valid_data dsm nd) as [|x l] eqn:E; [done|].
  rewrite fit_dtm_dsm, E. cbn [amax].
  pose proof (fill_nodata_range dsm nd x l E) as Hrange.
  eapply Forall_impl; [exact Hrange|]. intros row Hrow. simpl in Hrow.
  eapply Forall_impl; [exact Hrow|]. by intros y [_ ?].
Qed.

Lemma fit_dtm_leaves_no_nodata_witness :
  Exists (Exists (λ x, x ≠ nodata)) dsm_gap
  ∧ Forall (Forall (λ x, x ≠ nodata)) (fit_dtm dsm_gap nodata).1.
Proof.
  assert (Hvalid : Exists (Exists (λ x, x ≠ nodata)) dsm_gap).
  { apply Exists_cons_hd, Exists_cons_tl, Exists_cons_hd. discriminate. }
  split; [exact Hvalid|].
  exact (fit_dtm_leaves_no_nodata dsm_gap nodata Hvalid).
Defined.

(** X5.  A second call on the DSM the first call has written into changes
    nothing more and has the same outcome: the same DTM, or the same
    exception. *)
Theorem fit_dtm_twice (dsm : raster) nd :
  fit_dtm (fit_dtm dsm nd).1 nd = fit_dtm dsm nd.
Proof.
  destruct (valid_data dsm nd) as [|x l] eqn:E.
  - rewrite (fit_dtm_empty dsm nd E). cbn [fst]. apply (fit_dtm_empty dsm nd E).
  - destruct (valid_data_filled dsm nd x l E) as (y & l' & E' & Emin & Emax & Efill).
    rewrite fit_dtm_dsm, E. cbn [amax].
    unfold fit_dtm. rewrite E, E'. cbn [amin amax].
    by rewrite Emin, Emax, Efill.
Qed.



(** ** A change of elevation unit and datum *)

Section affine.
Variables (k c : Qc).
Hypothesis k_pos : (0 < k)%Qc.
Let f (x : Qc) : Qc := (k * x + c)%Qc.
















End affine.



(** ** The pyramid *)

Lemma twice_lt_of_half n i : i < slice2_len 0 n → 2 * i < n.
Proof.
  unfold slice2_len. intros Hi.
  pose proof (Nat.div_mod_eq (n + 1 - 0) 2). pose proof (Nat.mod_upper_bound (n + 1 - 0) 2).
  lia.
Qed.

(** X8.  Decimating what [upsample] has written gives the coarse raster
    back: [downsample] undoes [upsample], whatever the parity of the
    output shape. *)
Theorem downsample_upsample h w (coarse out : raster) :
  rect h w out → rect ((h + 1) / 2) ((w + 1) / 2) coarse →
  ∃ out', upsample coarse out = Ok out' ∧ downsample out' = coarse.
Proof.
  intros Hout Hco.
  assert (Hco' : rect (slice2_len 0 h) (slice2_len 0 w) coarse).
  { unfold slice2_len. by rewrite !Nat.sub_0_r. }
  rewrite (upsample_ok h w) by done. eexists. split; [done|].
  destruct h as [|h].
  { apply rect_0_inv in Hco'. by subst. }
  unfold downsample. rewrite (rect_shape (S h) w) by (apply rect_tabulate || lia).
  cbn [fst snd]. apply (raster_ext (slice2_len 0 (S h)) (slice2_len 0 w));
    [apply rect_tabulate | done |].
  intros r c Hr Hc. rewrite get_tabulate by done.
  rewrite get_tabulate by by apply twice_lt_of_half.
  by rewrite !(Nat.mul_comm 2), !Nat.div_mul.
Qed.

Lemma downsample_upsample_witness :
  rect 3 3 out_3x3 ∧ rect ((3 + 1) / 2) ((3 + 1) / 2) dtm_2x2
  ∧ ∃ out', upsample dtm_2x2 out_3x3 = Ok out' ∧ downsample out' = dtm_2x2.
Proof.
  assert (H1 : rect 3 3 out_3x3) by (split; [reflexivity | repeat constructor]).
  assert (H2 : rect ((3 + 1) / 2) ((3 + 1) / 2) dtm_2x2)
    by (split; [reflexivity | repeat constructor]).
  split; [exact H1|]. split; [exact H2|].
  exact (downsample_upsample 3 3 dtm_2x2 out_3x3 H1 H2).
Defined.

(** X9.  Above the coarsest level the driver reads its DTM argument only
    through the decimated copy it hands down: two seeds of one shape with
    the same even-indexed cells give the same fit, the same deepest level
    and the same final content of the array.  Whatever is written into
    the array through the view is overwritten by [upsample]. *)
Theorem recursive_fit_dtm_seed h w (dtm1 dtm2 dsm : raster) step level :
  rect h w dtm1 → rect h w dtm2 → rect h w dsm → 100 < h `min` w →
  downsample dtm1 = downsample dtm2 →
  recursive_fit_dtm dtm1 dsm step level = recursive_fit_dtm dtm2 dsm step level.
Proof.
  intros Hdtm1 Hdtm2 Hdsm Hgt Hds. assert (Hh : 0 < h) by lia.
  rewrite (recursive_fit_dtm_rec dtm1), (recursive_fit_dtm_rec dtm2)
    by (rewrite (min_dim_rect h w); [lia|done..]).
  rewrite Hds.
  destruct (recursive_fit_dtm_ok (slice2_len 0 h) (slice2_len 0 w)
              (downsample dtm2) (downsample dsm) step (level + 1))
    as (buf & seed & s & n & E & Hseed); [by apply rect_downsample..|].
  rewrite E. cbn [mbind result_bind fst snd].
  by rewrite !(upsample_ok h w)
    by (by apply rect_write_view || by apply rect_drape, rect_downsample).
Qed.

Lemma recursive_fit_dtm_seed_witness :
  rect 201 150 dtm_large ∧ rect 201 150 dtm_large_odd ∧ rect 201 150 dsm_large
  ∧ 100 < 201 `min` 150
  ∧ downsample dtm_large = downsample dtm_large_odd
  ∧ recursive_fit_dtm dtm_large dsm_large 1%Qc 0
    = recursive_fit_dtm dtm_large_odd dsm_large 1%Qc 0.
Proof.
  assert (H1 : rect 201 150 dtm_large) by apply rect_full.
  assert (H2 : rect 201 150 dtm_large_odd) by apply rect_tabulate.
  assert (H3 : rect 201 150 dsm_large) by apply rect_full.
  assert (H4 : 100 < 201 `min` 150) by (vm_compute; lia).
  assert (H5 : downsample dtm_large = downsample dtm_large_odd) by (vm_compute; reflexivity).
  split; [exact H1|]. split; [exact H2|]. split; [exact H3|].
  split; [exact H4|]. split; [exact H5|].
  exact (recursive_fit_dtm_seed 201 150 dtm_large dtm_large_odd dsm_large 1%Qc 0
           H1 H2 H3 H4 H5).
Defined.



(** * Grouping the image files *)

Section grouping.
Import RunDanesfield.

Lemma last_filter_cons {A} (P : A → Prop) `{!∀ x, Decision (P x)} x (l : list A) :
  last (filter P (x :: l))
  = match last (filter P l) with
    | Some y => Some y
    | None => if decide (P x) then Some x else None
    end.
Proof.
  rewrite filter_cons. destruct (decide (P x)); [|by destruct (last (filter P l))].
  destruct (filter P l) as [|y k] eqn:E; [done|].
  rewrite last_cons. by destruct (last (y :: k)).
Qed.

Lemma modality_of_cases fpath m :
  modality_of fpath = Some m → m = "pan" ∨ m = "msi" ∨ m = "swir".
Proof.
  unfold modality_of. repeat case_match; intros [= <-]; auto.
Qed.

(** What [classify_fpaths] leaves in an entry that has the three
    modalities: under each modality, the last path of the list that names
    the prefix and that modality. *)
Lemma classify_fpaths_entry prefix fpaths file_type
    (d : gmap string (gmap string (gmap string string)))
    (entry : gmap string (gmap string string)) :
  d !! prefix = Some entry →
  is_Some (entry !! "pan") → is_Some (entry !! "msi") → is_Some (entry !! "swir") →
  ∃ entry',
    classify_fpaths prefix fpaths d file_type = (<[prefix := entry']> d, None)
    ∧ ∀ m, entry' !! m
           = match last (filter (λ p, contains prefix p = true
                                     ∧ modality_of p = Some m) fpaths) with
             | Some p => <[file_type := p]> <$> entry !! m
             | None => entry !! m
             end.
Proof.
  revert d entry. induction fpaths as [|p fpaths IH]; intros d entry Hd Hpan Hmsi Hswir.
  - exists entry. split; [by rewrite insert_id | done].
  - cbn [classify_fpaths].
    destruct (contains prefix p) eqn:Hc; [destruct (modality_of p) as [m0|] eqn:Hm|].
    + assert (Hm0 : is_Some (entry !! m0)).
      { destruct (modality_of_cases _ _ Hm) as [->|[->| ->]]; done. }
      destruct Hm0 as [fs Hfs]. unfold setitem. rewrite Hd, Hfs.
      destruct (IH (<[prefix := <[m0 := <[file_type := p]> fs]> entry]> d)
                  (<[m0 := <[file_type := p]> fs]> entry))
        as (entry' & E & Hentry').
      { apply lookup_insert_eq. }
      { destruct (decide (m0 = "pan")) as [->|?];
          [rewrite lookup_insert_eq | rewrite lookup_insert_ne by done]; done. }
      { destruct (decide (m0 = "msi")) as [->|?];
          [rewrite lookup_insert_eq | rewrite lookup_insert_ne by done]; done. }
      { destruct (decide (m0 = "swir")) as [->|?];
          [rewrite lookup_insert_eq | rewrite lookup_insert_ne by done]; done. }
      exists entry'. split; [by rewrite E, insert_insert_eq|].
      intros m. rewrite Hentry', last_filter_cons.
      destruct (last (filter _ fpaths)) as [q|].
      * destruct (decide (m0 = m)) as [->|Hne].
        -- rewrite lookup_insert_eq, Hfs. simpl. by rewrite insert_insert_eq.
        -- by rewrite lookup_insert_ne.
      * destruct (decide (m0 = m)) as [->|Hne].
        -- rewrite lookup_insert_eq, decide_True, Hfs by done. done.
        -- rewrite lookup_insert_ne by done.
           rewrite decide_False; [done|]. intros [_ ?]. congruence.
    + destruct (IH d entry Hd Hpan Hmsi Hswir) as (entry' & E & Hentry').
      exists entry'. split; [done|]. intros m. rewrite Hentry', last_filter_cons.
      destruct (last (filter _ fpaths)); [done|].
      rewrite decide_False; [done|]. intros [_ ?]. congruence.
    + destruct (IH d entry Hd Hpan Hmsi Hswir) as (entry' & E & Hentry').
      exists entry'. split; [done|]. intros m. rewrite Hentry', last_filter_cons.
      destruct (last (filter _ fpaths)); [done|].
      rewrite decide_False; [done|]. intros [? _]. congruence.
Qed.

Lemma stored_key (o : option string) file_type key
    (e : option (gmap string string)) :
  (∃ fs, e = Some fs ∧ is_Some (fs !! key)) →
  ∃ fs, match o with Some p => <[file_type := p]> <$> e | None => e end = Some fs
        ∧ is_Some (fs !! key).
Proof.
  intros (fs & -> & Hk). destruct o as [p|]; [|by exists fs].
  exists (<[file_type := p]> fs). split; [done|].
  destruct (decide (file_type = key)) as [->|?];
    [rewrite lookup_insert_eq | rewrite lookup_insert_ne by done]; done.
Qed.

(** The path that the loop of [main] leaves under a file type: the last
    one of the list that names the prefix and the modality, or the empty
    string of the fresh entry. *)
Let pick (prefix m : string) (fpaths : list string) : string :=
  default "" (last (filter (λ p, contains prefix p = true
                                 ∧ modality_of p = Some m) fpaths)).

Lemma stored_pick prefix m fpaths file_type (fs : gmap string string) :
  fs !! file_type = Some "" →
  match last (filter (λ p, contains prefix p = true
                           ∧ modality_of p = Some m) fpaths) with
  | Some p => <[file_type := p]> <$> Some fs
  | None => Some fs
  end = Some (<[file_type := pick prefix m fpaths]> fs).
Proof.
  intros Hfs. unfold pick. destruct (last _); simpl; [done|].
  by rewrite insert_id.
Qed.

Lemma group_prefix_ok ntf_fpaths rpc_fpaths info_fpaths
    (c : gmap string (gmap string (gmap string string)))
    (incomplete_ids : list string) prefix :
  ∃ entry,
    group_prefix ntf_fpaths rpc_fpaths info_fpaths (c, incomplete_ids) prefix
    = ((<[prefix := entry]> c, incomplete_ids), None)
    ∧ ∀ m, m ∈ ["pan"; "msi"; "swir"] →
        entry !! m
        = Some (<["info" := pick prefix m info_fpaths]>
                 (<["rpc" := pick prefix m rpc_fpaths]>
                   (<["image" := pick prefix m ntf_fpaths]> blank_files))).
Proof.
  unfold group_prefix. cbn [fst snd].
  destruct (classify_fpaths_entry prefix ntf_fpaths "image"
              (<[prefix := blank_entry]> c) blank_entry)
    as (e1 & -> & H1); [apply lookup_insert_eq | done..|].
  rewrite insert_insert_eq.
  assert (G1 : ∀ m, m ∈ ["pan"; "msi"; "swir"] →
            e1 !! m = Some (<["image" := pick prefix m ntf_fpaths]> blank_files)).
  { intros m Hm. rewrite H1.
    assert (blank_entry !! m = Some blank_files) as ->.
    { set_unfold. destruct Hm as [->|[->|[->|[]]]]; done. }
    by apply stored_pick. }
  destruct (classify_fpaths_entry prefix rpc_fpaths "rpc" (<[prefix := e1]> c) e1)
    as (e2 & -> & H2);
    [apply lookup_insert_eq | rewrite G1 by set_solver; done..|].
  rewrite insert_insert_eq.
  assert (G2 : ∀ m, m ∈ ["pan"; "msi"; "swir"] →
            e2 !! m = Some (<["rpc" := pick prefix m rpc_fpaths]>
                             (<["image" := pick prefix m ntf_fpaths]> blank_files))).
  { intros m Hm. rewrite H2, (G1 m Hm). by apply stored_pick. }
  destruct (classify_fpaths_entry prefix info_fpaths "info" (<[prefix := e2]> c) e2)
    as (e3 & -> & H3);
    [apply lookup_insert_eq | rewrite G2 by set_solver; done..|].
  rewrite insert_insert_eq.
  assert (G3 : ∀ m, m ∈ ["pan"; "msi"; "swir"] →
            e3 !! m = Some (<["info" := pick prefix m info_fpaths]>
                             (<["rpc" := pick prefix m rpc_fpaths]>
                               (<["image" := pick prefix m ntf_fpaths]> blank_files)))).
  { intros m Hm. rewrite H3, (G2 m Hm). by apply stored_pick. }
  exists e3. split; [|done].
  unfold complete, getitem2. rewrite lookup_insert_eq.
  rewrite !G3 by set_solver. done.
Qed.

Lemma group_loop_ok ntf_fpaths rpc_fpaths info_fpaths prefixes
    (c : gmap string (gmap string (gmap string string)))
    (incomplete_ids : list string) :
  ∃ c',
    group_loop ntf_fpaths rpc_fpaths info_fpaths prefixes (c, incomplete_ids)
    = ((c', incomplete_ids), None)
    ∧ (∀ k, k ∉ prefixes → c' !! k = c !! k)
    ∧ ∀ prefix, prefix ∈ prefixes →
        ∃ entry, c' !! prefix = Some entry
          ∧ ∀ m, m ∈ ["pan"; "msi"; "swir"] →
              entry !! m
              = Some (<["info" := pick prefix m info_fpaths]>
                       (<["rpc" := pick prefix m rpc_fpaths]>
                         (<["image" := pick prefix m ntf_fpaths]> blank_files))).
Proof.
  revert c. induction prefixes as [|p prefixes IH]; intros c.
  - exists c. split_and!; [done | done |]. intros prefix Hp. by apply elem_of_nil in Hp.
  - cbn [group_loop].
    destruct (group_prefix_ok ntf_fpaths rpc_fpaths info_fpaths c incomplete_ids p)
      as (e & -> & He).
    destruct (IH (<[p := e]> c)) as (c' & -> & Hframe & Hin).
    exists c'. split_and!; [done | |].
    + intros k Hk. apply not_elem_of_cons in Hk as [Hne Hk].
      by rewrite Hframe, lookup_insert_ne.
    + intros prefix Hp. destruct (decide (prefix ∈ prefixes)) as [?|Hnot]; [by apply Hin|].
      apply elem_of_cons in Hp as [->|?]; [|done].
      exists e. split; [|done]. by rewrite Hframe, lookup_insert_eq.
Qed.

End grouping.

(** X11. [classify_fpaths] on an id whose entry has the three modalities
    never raises, leaves the entries of all other ids as they were, and
    under each modality stores the last path of the list that contains
    the prefix and is classified under that modality (a path with the
    marker [-P1BS-] is PAN whatever else it contains, then [-M1BS-],
    then [-A1BS-]); with no such path the files of the modality are
    unchanged. *)
Theorem classify_fpaths_last_wins (prefix : string) (fpaths : list string)
    (file_type : string)
    (d : gmap string (gmap string (gmap string string)))
    (entry : gmap string (gmap string string)) (m : string)
    (files : gmap string string) :
  d !! prefix = Some entry →
  is_Some (entry !! "pan") → is_Some (entry !! "msi") → is_Some (entry !! "swir") →
  entry !! m = Some files →
  ∃ d' entry',
    RunDanesfield.classify_fpaths prefix fpaths d file_type = (d', None)
    ∧ (∀ k, k ≠ prefix → d' !! k = d !! k)
    ∧ d' !! prefix = Some entry'
    ∧ entry' !! m
      = Some match last (filter (λ p, RunDanesfield.contains prefix p = true
                                      ∧ RunDanesfield.modality_of p = Some m)
                                fpaths) with
             | Some p => <[file_type := p]> files
             | None => files
             end.
Proof.
  intros Hd Hpan Hmsi Hswir Hm.
  destruct (classify_fpaths_entry prefix fpaths file_type d entry Hd Hpan Hmsi Hswir)
    as (entry' & E & Hentry').
  exists (<[prefix := entry']> d), entry'. split_and!; [done | | |].
  - intros k Hk. by rewrite lookup_insert_ne.
  - apply lookup_insert_eq.
  - rewrite Hentry', Hm. by destruct (last _).
Qed.

Lemma classify_fpaths_last_wins_witness :
  let d : gmap string (gmap string (gmap string string)) :=
    {[ "01JAN15000000" := RunDanesfield.blank_entry ]} in
  ∃ d' entry',
    RunDanesfield.classify_fpaths "01JAN15000000"
      [RunDanesfield.pan_ntf; RunDanesfield.msi_ntf; RunDanesfield.pan_ntf_b;
       RunDanesfield.other_ntf] d "image" = (d', None)
    ∧ (∀ k, k ≠ "01JAN15000000" → d' !! k = d !! k)
    ∧ d' !! "01JAN15000000" = Some entry'
    ∧ entry' !! "pan"
      = Some match last (filter (λ p, RunDanesfield.contains "01JAN15000000" p = true
                                      ∧ RunDanesfield.modality_of p = Some "pan")
                                [RunDanesfield.pan_ntf; RunDanesfield.msi_ntf;
                                 RunDanesfield.pan_ntf_b; RunDanesfield.other_ntf]) with
             | Some p => <["image" := p]> RunDanesfield.blank_files
             | None => RunDanesfield.blank_files
             end.
Proof.
  intros d.
  apply (classify_fpaths_last_wins "01JAN15000000" _ "image" d
           RunDanesfield.blank_entry "pan" RunDanesfield.blank_files).
  - reflexivity.
  - eexists; reflexivity.
  - eexists; reflexivity.
  - eexists; reflexivity.
  - reflexivity.
Defined.

(** X12. With an id that has no entry in the dict, [classify_fpaths]
    raises [KeyError] for that id at the first path that contains the
    prefix and one of the three markers, and nothing has been written;
    when no path does, it returns without touching the dict. *)
Theorem classify_fpaths_missing_id (prefix : string) (fpaths : list string)
    (file_type : string)
    (d : gmap string (gmap string (gmap string string))) :
  d !! prefix = None →
  RunDanesfield.classify_fpaths prefix fpaths d file_type
  = (d, if existsb (λ p, RunDanesfield.contains prefix p
                         && bool_decide (is_Some (RunDanesfield.modality_of p)))
                   fpaths
        then Some (RunDanesfield.KeyError prefix) else None).
Proof.
  intros Hd. induction fpaths as [|p fpaths IH]; [done|].
  cbn [RunDanesfield.classify_fpaths existsb].
  destruct (RunDanesfield.contains prefix p); [|done].
  destruct (RunDanesfield.modality_of p) as [m|]; [|done].
  unfold RunDanesfield.setitem. by rewrite Hd.
Qed.

Lemma classify_fpaths_missing_id_witness :
  RunDanesfield.classify_fpaths "01JAN15000000"
    [RunDanesfield.other_ntf; RunDanesfield.msi_ntf; RunDanesfield.pan_ntf]
    ({[ "02FEB16111111" := RunDanesfield.blank_entry ]}) "image"
  = ({[ "02FEB16111111" := RunDanesfield.blank_entry ]},
     if existsb (λ p, RunDanesfield.contains "01JAN15000000" p
                      && bool_decide (is_Some (RunDanesfield.modality_of p)))
                [RunDanesfield.other_ntf; RunDanesfield.msi_ntf; RunDanesfield.pan_ntf]
     then Some (RunDanesfield.KeyError "01JAN15000000") else None).
Proof.
  apply (classify_fpaths_missing_id "01JAN15000000"). reflexivity.
Defined.

(** X13. The completeness test of [main] never fails: the entry of a
    prefix is created with the keys [image], [rpc] and [info] under every
    modality and [ensure_complete_modality] tests keys, not values, so
    whatever files were found the loop raises nothing, reports no
    incomplete id and keeps an entry for every prefix, and for no other
    id. *)
Theorem group_files_never_incomplete
    (ntf_fpaths rpc_fpaths info_fpaths prefixes : list string) :
  ∃ c,
    RunDanesfield.group_files ntf_fpaths rpc_fpaths info_fpaths prefixes
    = ((c, []), None)
    ∧ dom c = list_to_set prefixes.
Proof.
  unfold RunDanesfield.group_files.
  destruct (group_loop_ok ntf_fpaths rpc_fpaths info_fpaths prefixes ∅ [])
    as (c & E & Hframe & Hin).
  exists c. split; [done|]. apply set_eq. intros k.
  rewrite elem_of_dom, elem_of_list_to_set. split.
  - intros Hk. destruct (decide (k ∈ prefixes)) as [?|Hnot]; [done|].
    rewrite (Hframe k Hnot), lookup_empty in Hk. by destruct Hk.
  - intros Hk. destruct (Hin k Hk) as (entry & -> & _). done.
Qed.

(** X14. What the loop of [main] leaves for a prefix: under each of the
    three modalities and each file type, the last path of the list of
    that type that contains the prefix and is classified under the
    modality, and the empty string when there is none. *)
Theorem group_files_entry
    (ntf_fpaths rpc_fpaths info_fpaths prefixes : list string)
    (prefix m : string) :
  prefix ∈ prefixes →
  m ∈ ["pan"; "msi"; "swir"] →
  let found (fpaths : list string) : string :=
    default "" (last (filter (λ p, RunDanesfield.contains prefix p = true
                                   ∧ RunDanesfield.modality_of p = Some m)
                             fpaths)) in
  ∃ c entry,
    RunDanesfield.group_files ntf_fpaths rpc_fpaths info_fpaths prefixes
    = ((c, []), None)
    ∧ c !! prefix = Some entry
    ∧ entry !! m = Some {[ "image" := found ntf_fpaths;
                           "rpc" := found rpc_fpaths;
                           "info" := found info_fpaths ]}.
Proof.
  intros Hp Hm found. unfold RunDanesfield.group_files.
  destruct (group_loop_ok ntf_fpaths rpc_fpaths info_fpaths prefixes ∅ [])
    as (c & E & _ & Hin).
  destruct (Hin prefix Hp) as (entry & Hc & He).
  exists c, entry. split_and!; [done | done |].
  rewrite (He m Hm). reflexivity.
Qed.

Lemma group_files_entry_witness :
  let ntf_fpaths := [RunDanesfield.pan_ntf; RunDanesfield.msi_ntf;
                     RunDanesfield.pan_ntf_b; RunDanesfield.other_ntf] in
  let found (fpaths : list string) : string :=
    default "" (last (filter (λ p, RunDanesfield.contains "01JAN15000000" p = true
                                   ∧ RunDanesfield.modality_of p = Some "pan")
                             fpaths)) in
  ∃ c entry,
    RunDanesfield.group_files ntf_fpaths [] [] ["01JAN15000000"; "02FEB16111111"]
    = ((c, []), None)
    ∧ c !! "01JAN15000000" = Some entry
    ∧ entry !! "pan" = Some {[ "image" := found ntf_fpaths;
                               "rpc" := found [];
                               "info" := found [] ]}.
Proof.
  intros ntf_fpaths.
  apply (group_files_entry ntf_fpaths [] [] ["01JAN15000000"; "02FEB16111111"]
           "01JAN15000000" "pan").
  - apply list_elem_of_here.
  - apply list_elem_of_here.
Defined.

(** The loop on the sample paths: the second PAN image replaces the
    first, and the id without an MSI image is kept all the same. *)
Example group_files_sample :
  RunDanesfield.group_files
    [RunDanesfield.pan_ntf; RunDanesfield.msi_ntf; RunDanesfield.pan_ntf_b;
     RunDanesfield.other_ntf] [] [] ["01JAN15000000"; "02FEB16111111"]
  = (({[ "01JAN15000000" :=
           {[ "pan" := {[ "image" := RunDanesfield.pan_ntf_b; "rpc" := ""; "info" := "" ]};
              "msi" := {[ "image" := RunDanesfield.msi_ntf; "rpc" := ""; "info" := "" ]};
              "swir" := RunDanesfield.blank_files ]};
         "02FEB16111111" :=
           {[ "pan" := {[ "image" := RunDanesfield.other_ntf; "rpc" := ""; "info" := "" ]};
              "msi" := RunDanesfield.blank_files;
              "swir" := RunDanesfield.blank_files ]} ]}, []), None).
Proof. vm_compute. reflexivity. Qed.

Lemma prefix_append (sub s : string) :
  String.prefix sub s = true ↔ ∃ post, s = sub +:+ post.
Proof.
  revert s. induction sub as [|a sub IH]; intros s; simpl.
  - split; [by exists s | intros _; by destruct s].
  - destruct s as [|b s]; [split; [done | by intros [? [=]]]|].
    simpl. destruct (Ascii.ascii_dec a b) as [->|Hne].
    + rewrite IH. split; intros [post E]; exists post; [by rewrite E | by injection E].
    + split; [done | intros [post [= ? ?]]; done].
Qed.

(** [contains sub s] is Python's [sub in s] on strings. *)
Lemma contains_substring (sub s : string) :
  RunDanesfield.contains sub s = true ↔ ∃ pre post, s = pre +:+ sub +:+ post.
Proof.
  induction s as [|a s IH]; cbn [RunDanesfield.contains].
  - rewrite orb_false_r, prefix_append. split.
    + intros [post E]. by exists "", post.
    + intros ([|? ?] & post & E); [by exists post | done].
  - rewrite orb_true_iff, IH, prefix_append. split.
    + intros [[post E] | (pre & post & E)].
      * by exists "", post.
      * exists (String a pre), post. by rewrite E.
    + intros ([|b pre] & post & E).
      * left. by exists post.
      * right. injection E as -> E. by exists pre, post.
Qed.
